(** * exchangelib.autodiscover.cache: the two-tier autodiscover cache

    A shallow embedding of [src/exchangelib/autodiscover/cache.py] and the
    properties of its specification.

    The module keeps a per-process dictionary [_protocols] from
    (domain, credentials) to protocol objects, and persists
    domain -> (service_endpoint, auth_type, retry_policy) in a [shelve]
    database that is opened, used and released inside every method.

    Python effects are threaded explicitly: a method is a function from the
    state (the dictionary of the cache object together with the file system,
    the objects that are open and a trace of the calls into the collaborators)
    to an outcome, which is a raised exception or a returned value, and the
    state it leaves behind. *)

From Stdlib Require Import Ascii String.
From stdpp Require Import base option list strings gmap pretty.

Local Open Scope string_scope.
Local Open Scope list_scope.

(** ** Exceptions

    The code distinguishes handlers by exception class: [except KeyError] in
    [shelve_filename] and [__delitem__], [except Exception] in
    [shelve_open_with_failover]. Every class below derives from [Exception];
    [KeyboardInterrupt] and [SystemExit] are not modelled. *)

Inductive exn : Type :=
  | KeyError      (* missing dictionary or database key; getpwuid() miss *)
  | OSError       (* the operating system refused the call *)
  | ImportError   (* getpass.getuser() where the pwd module is missing *)
  | DbmError.     (* dbm.error: not a database, truncated or corrupt file *)

Definition is_KeyError (e : exn) : bool :=
  match e with KeyError => true | _ => false end.

(** [except Exception]: every modelled class is a subclass. *)
Definition is_Exception (e : exn) : bool := true.

(** ** The storage identity *)

(** What the interpreter and the host answer when the module is imported:
    [sys.version_info[:2]], the outcome of [getpass.getuser()] (a name, or the
    exception it raises) and the outcome of [tempfile.gettempdir()] (a
    directory, or the exception it raises when it finds no usable one). *)
Record Runtime : Type := mkRuntime {
  version_info : nat * nat;
  getuser : exn + string;
  gettempdir : exn + string }.


(** [shelve_filename()]: only [KeyError] from [getuser()] is handled and
    replaced by the default user name; any other exception leaves the
    function. *)
Definition shelve_filename (rt : Runtime) : exn + string :=
  let version := 2%nat in
  let '(major, minor) := version_info rt in
  let user : exn + string :=
    match getuser rt with
    | inr user => inr user
    | inl e => if is_KeyError e then inr "exchangelib" else inl e
    end in
  match user with
  | inl e => inl e
  | inr user =>
      inr ("exchangelib." +:+ pretty version +:+ ".cache." +:+ user +:+
           ".py" +:+ pretty major +:+ pretty minor)
  end.

(** The storage identity in the words of the specification: a name made of
    the format version, the major and minor version of the runtime and the
    invoking user. *)
Definition storage_identity (formatVersion runtimeMajor runtimeMinor : nat)
    (invokingUser : string) : string :=
  "exchangelib." +:+ pretty formatVersion +:+ ".cache." +:+ invokingUser +:+
  ".py" +:+ pretty runtimeMajor +:+ pretty runtimeMinor.

(** [os.path.join(a, b)] for a relative [b], POSIX flavour. *)
Definition ends_with_sep (a : string) : bool :=
  match String.rev a with
  | String c _ => bool_decide (c = "/"%char)
  | EmptyString => false
  end.

Definition path_join (a b : string) : string :=
  if bool_decide (a = "") then b
  else if ends_with_sep a then a +:+ b
  else a +:+ "/" +:+ b.

(** The user name that goes into the storage name, if any: the one
    [getuser()] returns, or the default one when it raises [KeyError]. *)
Definition effective_user (rt : Runtime) : option string :=
  match getuser rt with
  | inr user => Some user
  | inl e => if is_KeyError e then Some "exchangelib" else None
  end.

(** The module constant, evaluated once at import:
    [os.path.join(tempfile.gettempdir(), shelve_filename())]. The arguments
    are evaluated from left to right, [tempfile.gettempdir()] first. *)
Definition AUTODISCOVER_PERSISTENT_STORAGE (rt : Runtime) : exn + string :=
  match gettempdir rt with
  | inl e => inl e
  | inr tempdir =>
      match shelve_filename rt with
      | inl e => inl e
      | inr name => inr (path_join tempdir name)
      end
  end.

(** ** Objects, files and the state *)

Section Cache.

(** The credentials of the package and its retry policies are opaque values;
    credentials are compared and hashed, being part of a dictionary key. *)
Context {Cred RetryPolicy : Type} `{!EqDecision Cred} `{!Countable Cred}.

(** Modelled from the spec: [AutodiscoverProtocol] (module [.protocol]) is a
    connection handle that wraps a discovery record and credentials, exposes
    [service_endpoint], [auth_type] and [retry_policy], and has a [close()]
    operation. [oid] is the identity of the Python object: the same object may
    be stored under several keys. *)
Record Protocol : Type := mkProtocol {
  oid : nat;
  service_endpoint : string;
  auth_type : string;
  retry_policy : RetryPolicy;
  credentials : Cred }.

(** The persisted payload, [(service_endpoint, auth_type, retry_policy)]. *)
Abbreviation payload := (string * string * RetryPolicy)%type.

Definition record_of (protocol : Protocol) : payload :=
  (service_endpoint protocol, auth_type protocol, retry_policy protocol).

(** A file either holds a well-formed database or bytes that [shelve.open]
    rejects. The directory of the cache is a flat set of regular files. *)
Inductive file : Type :=
  | Shelf (d : gmap string payload)
  | Garbage.

(** An open [shelve.Shelf]: an object identity and the file behind it. *)
Record shelf : Type := mkShelf { shelf_id : nat; shelf_file : string }.

(** Calls that leave the module, in the order they are made. *)
Inductive event : Type :=
  | EvShelveOpen (filename : string) (ok : bool)
  | EvLogWarning (f : string) (e : exn)
  | EvUnlink (f : string)
  | EvShelfClose (h : nat)
  | EvDbContains (h : nat) (k : string)
  | EvDbGet (h : nat) (k : string)
  | EvDbSet (h : nat) (k : string)
  | EvDbDel (h : nat) (k : string)
  | EvDbClear (h : nat)
  | EvProtocolNew (o : nat)
  | EvLogDebug (domain : string)
  | EvProtocolClose (o : nat).

(** [_protocols] is the dictionary of the cache object. The rest is the world
    around it: the files, the failures the environment imposes on the coming
    calls of [shelve.open] whatever the files hold ([Some e]: the call raises
    [e]; [None] or an exhausted list: the call depends on the files only),
    the shelves that are open, the next fresh object identity and the trace. *)
Record State : Type := mkState {
  _protocols : gmap (string * Cred) Protocol;
  files : gmap string file;
  open_faults : list (option exn);
  open_shelves : list nat;
  next_id : nat;
  trace : list event }.

Definition set_protocols
    (f : gmap (string * Cred) Protocol → gmap (string * Cred) Protocol)
    (s : State) : State :=
  mkState (f (_protocols s)) (files s) (open_faults s) (open_shelves s)
          (next_id s) (trace s).
Definition set_files (f : gmap string file → gmap string file) (s : State) : State :=
  mkState (_protocols s) (f (files s)) (open_faults s) (open_shelves s)
          (next_id s) (trace s).
Definition set_open_faults (f : list (option exn) → list (option exn))
    (s : State) : State :=
  mkState (_protocols s) (files s) (f (open_faults s)) (open_shelves s)
          (next_id s) (trace s).
Definition set_open_shelves (f : list nat → list nat) (s : State) : State :=
  mkState (_protocols s) (files s) (open_faults s) (f (open_shelves s))
          (next_id s) (trace s).
Definition set_next_id (f : nat → nat) (s : State) : State :=
  mkState (_protocols s) (files s) (open_faults s) (open_shelves s)
          (f (next_id s)) (trace s).
Definition set_trace (f : list event → list event) (s : State) : State :=
  mkState (_protocols s) (files s) (open_faults s) (open_shelves s)
          (next_id s) (f (trace s)).

(** ** The monad of methods: state and exceptions *)

Definition M (A : Type) : Type := State → (exn + A) * State.

#[global] Instance M_ret : MRet M := λ A a s, (inr a, s).
#[global] Instance M_bind : MBind M := λ A B f m s,
  match m s with
  | (inr a, s') => f a s'
  | (inl e, s') => (inl e, s')
  end.

Definition raise {A} (e : exn) : M A := λ s, (inl e, s).
Definition gets {A} (f : State → A) : M A := λ s, (inr (f s), s).
Definition modify (f : State → State) : M unit := λ s, (inr tt, f s).
Definition emit (ev : event) : M unit := modify (set_trace (λ t, (t ++ [ev])%list)).

(** [try: m except cls as e: handler e]. *)
Definition try_except {A} (m : M A) (cls : exn → bool) (handler : exn → M A) : M A :=
  λ s, match m s with
       | (inl e, s') => if cls e then handler e s' else (inl e, s')
       | r => r
       end.

(** [for x in l: body x]. *)
Fixpoint for_ {A} (l : list A) (body : A → M unit) : M unit :=
  match l with
  | [] => mret tt
  | x :: l => body x ;; for_ l body
  end.

Definition fresh : M nat :=
  n ← gets next_id; modify (set_next_id S) ;; mret n.

(** ** The collaborators: shelve, glob, os, logging, the protocol class *)

Definition next_fault : M (option exn) :=
  l ← gets open_faults;
  modify (set_open_faults (drop 1)) ;;
  mret (default None (head l)).

Definition new_shelf (filename : string) : M shelf :=
  n ← fresh;
  modify (set_open_shelves (λ l, n :: l)) ;;
  emit (EvShelveOpen filename true) ;;
  mret (mkShelf n filename).

(** [shelve.open(filename)], flag 'c': opens the database, creating an empty
    one when there is no file; raises on a file that is not a database, and
    whenever the environment says so. *)
Definition shelve_open (filename : string) : M shelf :=
  fault ← next_fault;
  content ← gets (λ s, files s !! filename);
  match fault, content with
  | Some e, _ => emit (EvShelveOpen filename false) ;; raise e
  | None, Some Garbage => emit (EvShelveOpen filename false) ;; raise DbmError
  | None, Some (Shelf _) => new_shelf filename
  | None, None => modify (set_files <[filename := Shelf ∅]>) ;; new_shelf filename
  end.

(** [shelve_handle.close()]: the shelf leaves the open ones. *)
Fixpoint remove_first (n : nat) (l : list nat) : list nat :=
  match l with
  | [] => []
  | x :: l => if Nat.eqb x n then l else x :: remove_first n l
  end.

Definition shelf_close (db : shelf) : M unit :=
  modify (set_open_shelves (remove_first (shelf_id db))) ;;
  emit (EvShelfClose (shelf_id db)).

(** [glob.glob(filename + '*')], for a [filename] free of glob
    metacharacters: the files whose name starts with [filename]. *)
Definition matching (filename : string) (s : State) : list string :=
  List.filter (String.prefix filename) (map_to_list (files s)).*1.

Definition glob_prefix (filename : string) : M (list string) :=
  gets (matching filename).

(** [os.unlink(f)]: raises when there is no such file. *)
Definition os_unlink (f : string) : M unit :=
  present ← gets (λ s, bool_decide (is_Some (files s !! f)));
  if (present : bool)
  then modify (set_files (delete f)) ;; emit (EvUnlink f)
  else raise OSError.

Definition log_warning (f : string) (e : exn) : M unit := emit (EvLogWarning f e).
Definition log_debug (domain : string) : M unit := emit (EvLogDebug domain).

(** The dictionary behind an open shelf. *)
Definition dict_of (o : option file) : gmap string payload :=
  match o with Some (Shelf d) => d | _ => ∅ end.

Definition db_update (db : shelf)
    (f : gmap string payload → gmap string payload) : M unit :=
  modify (set_files (λ fs,
    <[shelf_file db := Shelf (f (dict_of (fs !! shelf_file db)))]> fs)).

(** [k in db] *)
Definition db_contains (db : shelf) (k : string) : M bool :=
  emit (EvDbContains (shelf_id db) k) ;;
  gets (λ s, bool_decide (is_Some (dict_of (files s !! shelf_file db) !! k))).

(** [db[k]] *)
Definition db_getitem (db : shelf) (k : string) : M payload :=
  emit (EvDbGet (shelf_id db) k) ;;
  v ← gets (λ s, dict_of (files s !! shelf_file db) !! k);
  match v with
  | Some v => mret v
  | None => raise KeyError
  end.

(** [db[k] = v] *)
Definition db_setitem (db : shelf) (k : string) (v : payload) : M unit :=
  emit (EvDbSet (shelf_id db) k) ;;
  db_update db <[k := v]>.

(** [del db[k]] *)
Definition db_delitem (db : shelf) (k : string) : M unit :=
  emit (EvDbDel (shelf_id db) k) ;;
  v ← gets (λ s, dict_of (files s !! shelf_file db) !! k);
  match v with
  | Some _ => db_update db (delete k)
  | None => raise KeyError
  end.

(** [db.clear()] *)
Definition db_clear (db : shelf) : M unit :=
  emit (EvDbClear (shelf_id db)) ;;
  db_update db (λ _, ∅).

(** Modelled from the spec: the connection-object factory,
    [AutodiscoverProtocol(config=Configuration(service_endpoint, credentials,
    auth_type, retry_policy))], returns a new handle exposing these values. *)
Definition AutodiscoverProtocol (endpoint : string) (creds : Cred)
    (auth : string) (policy : RetryPolicy) : M Protocol :=
  n ← fresh;
  emit (EvProtocolNew n) ;;
  mret (mkProtocol n endpoint auth policy creds).

(** Modelled from the spec: [protocol.close()] releases the network resources
    of the handle; here it is recorded in the trace. *)
Definition protocol_close (protocol : Protocol) : M unit :=
  emit (EvProtocolClose (oid protocol)).

(** ** The module *)

(** [future.utils.PY2], fixed by the interpreter that runs the module. *)
Variable PY2 : bool.

(** The generator [shelve_open_with_failover(filename)], up to its [yield]. *)
Definition failover_enter (filename : string) : M shelf :=
  try_except (shelve_open filename) is_Exception (λ e,
    fs ← glob_prefix filename;
    for_ fs (λ f, log_warning f e ;; os_unlink f) ;;
    shelve_open filename).

(** The generator after its [yield], reached when the body of the [with]
    statement ends without an exception. *)
Definition failover_exit (shelve_handle : shelf) : M unit :=
  if PY2 then shelf_close shelve_handle else mret tt.

(** [with shelve_open_with_failover(filename) as db: body]. An exception of
    the body is thrown into the generator at the [yield], where nothing
    catches it: the rest of the generator is skipped and the exception leaves
    the [with] statement. A [return] inside the body resumes the generator
    like a normal end of the body. *)
Definition shelve_open_with_failover {A} (filename : string) (body : shelf → M A) : M A :=
  db ← failover_enter filename;
  a ← body db;
  failover_exit db ;;
  mret a.

(** ** The class [AutodiscoverCache] *)

(** The property [_storage_file]: the module constant
    [AUTODISCOVER_PERSISTENT_STORAGE], a string once the import succeeded. *)
Variable _storage_file : string.

(** [str(domain)] of a domain that is a string. *)
Definition str (domain : string) : string := domain.

Definition clear : M unit :=
  shelve_open_with_failover _storage_file (λ db, db_clear db) ;;
  modify (set_protocols (λ _, ∅)).

Definition __contains__ (key : string * Cred) : M bool :=
  let domain := key.1 in
  shelve_open_with_failover _storage_file (λ db, db_contains db (str domain)).

(** [self._protocols.get(key)] is [None] for a missing key, which is false in
    [if protocol:]; a protocol object is true, its class defining neither
    [__bool__] nor [__len__]. *)
Definition __getitem__ (key : string * Cred) : M Protocol :=
  protocol ← gets (λ s, _protocols s !! key);
  match protocol with
  | Some protocol => mret protocol
  | None =>
      let '(domain, credentials) := key in
      '(endpoint, auth_type, retry_policy) ←
        shelve_open_with_failover _storage_file (λ db, db_getitem db (str domain));
      protocol ← AutodiscoverProtocol endpoint credentials auth_type retry_policy;
      modify (set_protocols <[key := protocol]>) ;;
      mret protocol
  end.

Definition __setitem__ (key : string * Cred) (protocol : Protocol) : M unit :=
  let domain := key.1 in
  shelve_open_with_failover _storage_file (λ db,
    db_setitem db (str domain)
      (service_endpoint protocol, auth_type protocol, retry_policy protocol)) ;;
  modify (set_protocols <[key := protocol]>).

(** [del self._protocols[key]] *)
Definition protocols_delitem (key : string * Cred) : M unit :=
  v ← gets (λ s, _protocols s !! key);
  match v with
  | Some _ => modify (set_protocols (delete key))
  | None => raise KeyError
  end.

Definition __delitem__ (key : string * Cred) : M unit :=
  let domain := key.1 in
  shelve_open_with_failover _storage_file (λ db,
    try_except (db_delitem db (str domain)) is_KeyError (λ _, mret tt)) ;;
  try_except (protocols_delitem key) is_KeyError (λ _, mret tt).

(** The loop visits the items of the dictionary; the model visits them in the
    order of [map_to_list]. *)
Definition close : M unit :=
  items ← gets (λ s, map_to_list (_protocols s));
  for_ items (λ '((domain, _), protocol),
    log_debug domain ;; protocol_close protocol) ;;
  modify (set_protocols (λ _, ∅)).

Definition __del__ : M unit :=
  try_except close is_Exception (λ _, mret tt).

(** The public operations, as one type. *)
Inductive op : Type :=
  | Contains (key : string * Cred)
  | Lookup (key : string * Cred)
  | Insert (key : string * Cred) (protocol : Protocol)
  | Remove (key : string * Cred)
  | Clear
  | Close.

Inductive value : Type :=
  | VNone
  | VBool (b : bool)
  | VProtocol (protocol : Protocol).

Definition run (o : op) : M value :=
  match o with
  | Contains key => b ← __contains__ key; mret (VBool b)
  | Lookup key => p ← __getitem__ key; mret (VProtocol p)
  | Insert key protocol => __setitem__ key protocol ;; mret VNone
  | Remove key => __delitem__ key ;; mret VNone
  | Clear => clear ;; mret VNone
  | Close => close ;; mret VNone
  end.

(** The outcome of a call and the state it leaves. *)
Definition result {A} (m : M A) (s : State) : exn + A := (m s).1.
Definition after {A} (m : M A) (s : State) : State := (m s).2.

(** A caller that goes on after every call, whatever its outcome. *)
Fixpoint run_all (l : list op) (s : State) : State :=
  match l with
  | [] => s
  | o :: l => run_all l (after (run o) s)
  end.

(** ** Observations *)

(** The persistent store as every process sees it: the database in the
    storage file, empty when the file is missing or unreadable. *)
Definition store (s : State) : gmap string payload :=
  dict_of (files s !! _storage_file).

(** The state of a process that has just imported the module on a host
    without a cache file. *)
Definition initial : State := mkState ∅ ∅ [] [] 0 [].

(** The invariant of the specification: every key of the in-memory index has
    its domain in the persistent store. *)
Definition Inv (s : State) : Prop :=
  map_Forall (λ (key : string * Cred) (_ : Protocol), is_Some (store s !! key.1))
             (_protocols s).

#[global] Instance Inv_dec s : Decision (Inv s).
Proof. unfold Inv. apply _. Defined.

(** The state after the loop of the handler of [shelve_open_with_failover]
    went through the files [l]. *)
Definition unlinked (e : exn) (l : list string) (s : State) : State :=
  set_trace (λ t, (t ++ flat_map (λ g, [EvLogWarning g e; EvUnlink g]) l)%list)
    (set_files (λ fs, foldl (λ fs g, delete g fs) fs l) s).

(** Counting in a trace: calls of [shelve.open], and calls of [close()] on the
    protocol object [o]. *)
Definition is_open (ev : event) : bool :=
  match ev with EvShelveOpen _ _ => true | _ => false end.
Definition attempts (t : list event) : nat := length (List.filter is_open t).

Definition is_close_of (o : nat) (ev : event) : bool :=
  match ev with EvProtocolClose o' => Nat.eqb o' o | _ => false end.
Definition closes (o : nat) (t : list event) : nat :=
  length (List.filter (is_close_of o) t).

(** The number of keys under which the dictionary holds the object [o]. *)
Definition bindings (o : nat) (m : gmap (string * Cred) Protocol) : nat :=
  length (List.filter (λ kp : string * Cred * Protocol, Nat.eqb (oid kp.2) o)
                      (map_to_list m)).

(** The protocol objects whose [close()] a trace calls, call by call. *)
Definition closed_handles (t : list event) : list nat :=
  omap (λ ev, match ev with EvProtocolClose o => Some o | _ => None end) t.

(** What [close()] adds to the trace. *)
Definition close_events (m : gmap (string * Cred) Protocol) : list event :=
  flat_map (λ kp : string * Cred * Protocol,
              [EvLogDebug kp.1.1; EvProtocolClose (oid kp.2)])
           (map_to_list m).

(** [shelve.open] and the handler look at the files and at the failures to
    come, and at nothing else. *)
Definition same_world (s s' : State) : Prop :=
  files s = files s' ∧ open_faults s = open_faults s'.

(** [close()] over a [protocol.close()] that may raise: the operation of the
    collaborator is a parameter, [close] is the instance at [protocol_close]. *)
Definition close_with (protocol_close : Protocol → M unit) : M unit :=
  items ← gets (λ s, map_to_list (_protocols s));
  for_ items (λ '((domain, _), protocol),
    log_debug domain ;; protocol_close protocol) ;;
  modify (set_protocols (λ _, ∅)).

(** [__del__()] over the same parameter. *)
Definition del_with (protocol_close : Protocol → M unit) : M unit :=
  try_except (close_with protocol_close) is_Exception (λ _, mret tt).

(** The operations that go to the persistent store in the state [s]: all but
    [close()] and a lookup that the in-memory index answers. *)
Definition opens_store (o : op) (s : State) : bool :=
  match o with
  | Close => false
  | Lookup key => bool_decide (_protocols s !! key = None)
  | _ => true
  end.

(** ** The monad, step by step *)

Lemma bind_inr {A B} (m : M A) (k : A → M B) s a s' :
  m s = (inr a, s') → (m ≫= k) s = k a s'.
Proof. intros E. unfold mbind, M_bind. by rewrite E. Qed.

Lemma bind_inl {A B} (m : M A) (k : A → M B) s e s' :
  m s = (inl e, s') → (m ≫= k) s = (inl e, s').
Proof. intros E. unfold mbind, M_bind. by rewrite E. Qed.

Lemma prefix_refl (a : string) : String.prefix a a = true.
Proof. induction a as [|c a IH]; simpl; [done|]. by destruct (ascii_dec c c). Qed.

(** ** Deleting the invalid cache files *)

Lemma foldl_delete_lookup (l : list string) (fs : gmap string file) g :
  foldl (λ fs g, delete g fs) fs l !! g = if decide (g ∈ l) then None else fs !! g.
Proof.
  revert fs. induction l as [|x l IH]; intros fs; cbn [foldl].
  - by rewrite decide_False by apply not_elem_of_nil.
  - rewrite IH. destruct (decide (g = x)) as [->|Hne].
    + rewrite lookup_delete_eq, (decide_True (P := x ∈ x :: l)) by left.
      by destruct (decide (x ∈ l)).
    + rewrite lookup_delete_ne by done.
      destruct (decide (g ∈ l)) as [Hin|Hin].
      * by rewrite decide_True by (by right).
      * rewrite decide_False; [done|]. by intros [?|?]%elem_of_cons.
Qed.

Lemma unlink_step e x c s :
  files s !! x = Some c →
  (log_warning x e ;; os_unlink x) s = (inr tt, unlinked e [x] s).
Proof.
  intros Hc. destruct s as [P F fl sh n tr]. simpl in Hc.
  cbv [mbind M_bind log_warning emit modify os_unlink gets set_trace set_files
       unlinked files _protocols open_faults open_shelves next_id trace flat_map foldl].
  rewrite Hc, bool_decide_true by eauto. simpl. by rewrite <- app_assoc.
Qed.

Lemma unlinked_cons e x l s : unlinked e (x :: l) s = unlinked e l (unlinked e [x] s).
Proof. destruct s. cbv [unlinked set_trace set_files]. simpl. by rewrite <- app_assoc. Qed.

Lemma unlink_loop e (l : list string) s :
  NoDup l → (∀ g, g ∈ l → is_Some (files s !! g)) →
  for_ l (λ g, log_warning g e ;; os_unlink g) s = (inr tt, unlinked e l s).
Proof.
  revert s. induction l as [|x l IH]; intros s Hnd Hin.
  - destruct s. cbv [unlinked set_trace set_files]. simpl. by rewrite app_nil_r.
  - apply NoDup_cons in Hnd as [Hx Hnd].
    destruct (Hin x) as [c Hc]; [left|].
    cbn [for_]. erewrite bind_inr by (by eapply unlink_step).
    rewrite IH; [by rewrite (unlinked_cons e x l)|done|].
    intros g Hg. destruct s. cbn. rewrite lookup_delete_ne by (by intros ->).
    apply Hin. by right.
Qed.

Lemma elem_of_matching f s g :
  g ∈ matching f s ↔ String.prefix f g = true ∧ is_Some (files s !! g).
Proof.
  unfold matching. rewrite list_elem_of_In, filter_In, <- list_elem_of_In.
  rewrite list_elem_of_fmap. split.
  - intros [[[g' c] [-> Hc%elem_of_map_to_list]] Hp]. eauto.
  - intros [Hp [c Hc]]. split; [|done]. exists (g, c). by rewrite elem_of_map_to_list.
Qed.

Lemma NoDup_matching f s : NoDup (matching f s).
Proof.
  unfold matching. apply NoDup_ListNoDup, List.NoDup_filter, NoDup_ListNoDup.
  apply NoDup_fst_map_to_list.
Qed.

Lemma files_unlinked e l s g :
  files (unlinked e l s) !! g = if decide (g ∈ l) then None else files s !! g.
Proof. destruct s. cbn. apply foldl_delete_lookup. Qed.

Lemma files_purged e f s g :
  files (unlinked e (matching f s) s) !! g
  = if String.prefix f g then None else files s !! g.
Proof.
  rewrite files_unlinked. destruct (String.prefix f g) eqn:Hp.
  - destruct (files s !! g) as [c|] eqn:Hc; [|by case_decide].
    rewrite decide_True; [done|]. apply elem_of_matching. eauto.
  - rewrite decide_False; [done|]. rewrite elem_of_matching. intros [? _]. congruence.
Qed.

(** The handler of [shelve_open_with_failover], followed by [k]. *)
Lemma handler_eq {A} e f (k : M A) s :
  (fs ← glob_prefix f; for_ fs (λ g, log_warning g e ;; os_unlink g) ;; k) s
  = k (unlinked e (matching f s) s).
Proof.
  unfold glob_prefix. erewrite bind_inr by reflexivity.
  erewrite bind_inr; [done|].
  apply unlink_loop; [apply NoDup_matching|].
  intros g Hg. by apply elem_of_matching in Hg as [_ ?].
Qed.

(** ** [shelve.open] *)

Ltac unfold_open :=
  cbv [shelve_open next_fault new_shelf fresh mbind M_bind mret M_ret gets modify
       emit raise set_open_faults set_files set_trace set_next_id set_open_shelves
       files _protocols open_faults open_shelves next_id trace].

Lemma shelve_open_inr f s db s' :
  shelve_open f s = (inr db, s') →
  db = mkShelf (next_id s) f ∧
  s' = mkState (_protocols s) (<[f := Shelf (dict_of (files s !! f))]> (files s))
         (drop 1 (open_faults s)) (next_id s :: open_shelves s) (S (next_id s))
         (trace s ++ [EvShelveOpen f true]) ∧
  files s !! f ≠ Some Garbage.
Proof.
  destruct s as [P F fl sh n tr]. unfold_open.
  destruct fl as [|[e|] fl]; cbn; destruct (F !! f) as [[d|]|] eqn:EF; cbn;
    intros [= <- <-]; repeat split; try done; by rewrite insert_id.
Qed.

Lemma shelve_open_inl f s e s' :
  shelve_open f s = (inl e, s') →
  s' = mkState (_protocols s) (files s) (drop 1 (open_faults s)) (open_shelves s)
         (next_id s) (trace s ++ [EvShelveOpen f false]) ∧
  (head (open_faults s) = Some (Some e)
   ∨ open_faults s = [] ∧ files s !! f = Some Garbage
   ∨ head (open_faults s) = Some None ∧ files s !! f = Some Garbage).
Proof.
  destruct s as [P F fl sh n tr]. unfold_open.
  destruct fl as [|[e'|] fl]; cbn; destruct (F !! f) as [[d|]|] eqn:EF; cbn;
    intros [= <- <-]; split; auto.
Qed.

(** ** Entering the [with] statement *)

Lemma failover_enter_eq f s :
  failover_enter f s =
  match shelve_open f s with
  | (inl e, s1) => shelve_open f (unlinked e (matching f s1) s1)
  | r => r
  end.
Proof.
  unfold failover_enter, try_except.
  destruct (shelve_open f s) as [[e|db] s1]; [|done]. cbn. apply handler_eq.
Qed.

Lemma failover_enter_spec f s :
  match failover_enter f s with
  | (inr db, s') =>
      db = mkShelf (next_id s) f ∧ _protocols s' = _protocols s ∧
      open_shelves s' = next_id s :: open_shelves s ∧
      next_id s' = S (next_id s) ∧
      (∃ d, files s' !! f = Some (Shelf d) ∧ (d = dict_of (files s !! f) ∨ d = ∅)) ∧
      (∃ evs, trace s' = trace s ++ evs) ∧
      (open_faults s = [] →
       open_faults s' = [] ∧ dict_of (files s' !! f) = dict_of (files s !! f))
  | (inl e, s') =>
      _protocols s' = _protocols s ∧ open_shelves s' = open_shelves s ∧
      files s' !! f = None ∧ open_faults s ≠ []
  end.
Proof.
  rewrite failover_enter_eq.
  destruct (shelve_open f s) as [[e|db] s1] eqn:E1.
  - apply shelve_open_inl in E1 as [-> Hwhy].
    set (s1 := mkState _ _ _ _ _ _).
    pose proof (files_purged e f s1 f) as Hp. rewrite prefix_refl in Hp.
    destruct (shelve_open f _) as [[e2|db] s2] eqn:E2.
    + apply shelve_open_inl in E2 as [-> Hwhy2]. cbn -[unlinked].
      split_and!; try done.
      intros Hnil. rewrite Hp in Hwhy2. cbn in Hwhy2. rewrite Hnil in Hwhy2.
      cbn in Hwhy2. by destruct Hwhy2 as [?|[[_ ?]|[? _]]].
    + apply shelve_open_inr in E2 as (-> & -> & _). cbn -[unlinked].
      rewrite Hp. cbn. rewrite lookup_insert_eq. split_and!; eauto.
      * rewrite <- !app_assoc. eauto.
      * intros Hnil. rewrite Hnil in *. split; [done|].
        by destruct Hwhy as [?|[[_ ->]|[? _]]].
  - apply shelve_open_inr in E1 as (-> & -> & _). cbn.
    rewrite lookup_insert_eq. split_and!; eauto. by intros ->.
Qed.

(** ** The methods, one by one *)

Ltac enter s :=
  unfold result, after;
  cbv beta delta [shelve_open_with_failover mbind M_bind];
  let E := fresh "E" in
  pose proof (failover_enter_spec _storage_file s) as E;
  destruct (failover_enter _storage_file s)
    as [[?e|?db] [?P ?F ?fl ?sh ?m ?tr]];
  cbn [_protocols files open_faults open_shelves next_id trace] in E;
  [destruct E as (HP & Hsh & Hfile & Hfaults)
  |destruct E as (Hdb & HP & Hsh & Hid & (d & Hfile & Hd) & (evs & Htr) & Hbenign)];
  simplify_eq.

Ltac run :=
  unfold failover_exit, shelf_close, db_clear, db_contains, db_getitem, db_setitem,
    db_delitem, db_update, protocols_delitem, AutodiscoverProtocol, fresh,
    try_except, mbind, M_bind, mret, M_ret, gets, modify, emit, raise, store, str;
  cbn.

Lemma contains_spec key s :
  match __contains__ key s with
  | (r, s') =>
      _protocols s' = _protocols s ∧
      match r with
      | inr b =>
          (b = true → is_Some (store s !! key.1)) ∧
          open_shelves s' = (if PY2 then open_shelves s
                             else next_id s :: open_shelves s)
      | inl e => result (failover_enter _storage_file) s = inl e ∧
                 files s' !! _storage_file = None
      end ∧
      (open_faults s = [] →
       r = inr (bool_decide (is_Some (store s !! key.1))) ∧
       open_faults s' = [] ∧ store s' = store s)
  end.
Proof.
  unfold __contains__. enter s.
  - cbn. split_and!; done.
  - run. rewrite Hfile in Hbenign. cbn in Hbenign.
    destruct PY2; cbn; rewrite ?Nat.eqb_refl, Hfile; cbn.
    all: split; [done|split]; [split; [|done]|].
    all: try (intros Hb%bool_decide_eq_true; destruct Hd as [->| ->]; [done|];
              by rewrite lookup_empty in Hb; apply is_Some_None in Hb).
    all: intros Hnil; by destruct (Hbenign Hnil) as [-> ->].
Qed.

Lemma setitem_spec key protocol s :
  match __setitem__ key protocol s with
  | (r, s') =>
      match r with
      | inr _ =>
          _protocols s' = <[key := protocol]> (_protocols s) ∧
          (∃ d, (d = store s ∨ d = ∅) ∧
                store s' = <[key.1 := record_of protocol]> d) ∧
          open_shelves s' = (if PY2 then open_shelves s
                             else next_id s :: open_shelves s)
      | inl e => _protocols s' = _protocols s ∧
                 result (failover_enter _storage_file) s = inl e ∧
                 files s' !! _storage_file = None
      end ∧
      (open_faults s = [] →
       r = inr tt ∧ open_faults s' = [] ∧
       store s' = <[key.1 := record_of protocol]> (store s))
  end.
Proof.
  unfold __setitem__. enter s.
  - cbn. split_and!; done.
  - run. rewrite Hfile in Hbenign. cbn in Hbenign.
    destruct PY2; cbn; rewrite ?Nat.eqb_refl, ?lookup_insert_eq, Hfile; cbn.
    all: split; [split_and!; eauto|].
    all: intros Hnil; by destruct (Hbenign Hnil) as [-> ->].
Qed.

Lemma delitem_spec key s :
  match __delitem__ key s with
  | (r, s') =>
      match r with
      | inr _ =>
          _protocols s' = delete key (_protocols s) ∧
          (∃ d, (d = store s ∨ d = ∅) ∧ store s' = delete key.1 d) ∧
          open_shelves s' = (if PY2 then open_shelves s
                             else next_id s :: open_shelves s)
      | inl e => _protocols s' = _protocols s ∧
                 result (failover_enter _storage_file) s = inl e ∧
                 files s' !! _storage_file = None
      end ∧
      (open_faults s = [] →
       r = inr tt ∧ open_faults s' = [] ∧ store s' = delete key.1 (store s))
  end.
Proof.
  unfold __delitem__. enter s.
  - cbn. split_and!; done.
  - run. rewrite Hfile in Hbenign. cbn in Hbenign. rewrite Hfile. cbn.
    destruct (d !! key.1) as [v|] eqn:Hv; cbn;
      destruct PY2; cbn;
      destruct (_protocols s !! key) as [p|] eqn:Hp; cbn;
      rewrite ?Nat.eqb_refl, ?lookup_insert_eq, ?Hfile; cbn.
    all: split; [split_and!|]; try done.
    all: try (by rewrite delete_id).
    all: try (exists d; split; [done|]; first [done|by rewrite delete_id]).
    all: intros Hnil; destruct (Hbenign Hnil) as [-> Hd']; rewrite <- Hd'.
    all: first [done|by rewrite delete_id].
Qed.

Lemma clear_spec s :
  match clear s with
  | (r, s') =>
      match r with
      | inr _ =>
          _protocols s' = ∅ ∧ store s' = ∅ ∧
          open_shelves s' = (if PY2 then open_shelves s
                             else next_id s :: open_shelves s)
      | inl e => _protocols s' = _protocols s ∧
                 result (failover_enter _storage_file) s = inl e ∧
                 files s' !! _storage_file = None
      end ∧
      (open_faults s = [] → r = inr tt ∧ open_faults s' = [])
  end.
Proof.
  unfold clear. enter s.
  - cbn. split_and!; done.
  - run. destruct PY2; cbn; rewrite ?Nat.eqb_refl, ?lookup_insert_eq; cbn.
    all: split; [split_and!; eauto|].
    all: intros Hnil; by destruct (Hbenign Hnil) as [-> _].
Qed.

Lemma getitem_hit key protocol s :
  _protocols s !! key = Some protocol → __getitem__ key s = (inr protocol, s).
Proof. intros Hp. unfold __getitem__. by erewrite bind_inr by (unfold gets; by rewrite Hp). Qed.

Lemma getitem_miss_spec key s :
  _protocols s !! key = None →
  match __getitem__ key s with
  | (r, s') =>
      match r with
      | inr p =>
          p = mkProtocol (S (next_id s)) (record_of p).1.1 (record_of p).1.2
                         (record_of p).2 key.2 ∧
          store s !! key.1 = Some (record_of p) ∧
          store s' !! key.1 = Some (record_of p) ∧
          _protocols s' = <[key := p]> (_protocols s) ∧
          (∃ evs, trace s' = trace s ++ evs ++ [EvProtocolNew (oid p)]) ∧
          open_shelves s' = (if PY2 then open_shelves s
                             else next_id s :: open_shelves s)
      | inl e =>
          _protocols s' = _protocols s ∧
          (result (failover_enter _storage_file) s = inl e ∨
           e = KeyError ∧ store s' !! key.1 = None)
      end ∧
      (open_faults s = [] →
       open_faults s' = [] ∧ store s' = store s ∧
       match store s !! key.1 with
       | Some v => ∃ p, r = inr p
       | None => r = inl KeyError
       end)
  end.
Proof.
  intros Hmiss. unfold __getitem__.
  erewrite bind_inr by (unfold gets; by rewrite Hmiss). destruct key as [domain creds].
  enter s.
  - cbn. split_and!; auto. done.
  - run. rewrite Hfile in Hbenign. cbn in Hbenign. rewrite Hfile. cbn.
    destruct (d !! domain) as [[[endpoint auth] policy]|] eqn:Hv; cbn.
    + destruct PY2; cbn; rewrite ?Nat.eqb_refl, ?Hfile; cbn.
      all: split; [split_and!; eauto|].
      all: try (destruct Hd as [->| ->]; [done|by rewrite lookup_empty in Hv]).
      all: try solve
             [exists (evs ++ [EvDbGet (next_id s) domain] ++ [EvShelfClose (next_id s)]);
              by rewrite <- !app_assoc
             |exists (evs ++ [EvDbGet (next_id s) domain]); by rewrite <- !app_assoc].
      all: intros Hnil; destruct (Hbenign Hnil) as [-> Hd']; rewrite <- Hd', Hv; eauto.
    + rewrite Hfile. cbn. rewrite Hv. split; [split; auto|].
      intros Hnil; destruct (Hbenign Hnil) as [-> Hd']; by rewrite <- Hd', Hv.
Qed.

(** ** [close()] *)

Lemma close_loop (items : list (string * Cred * Protocol)) s :
  for_ items (λ '((domain, _), protocol),
    log_debug domain ;; protocol_close protocol) s
  = (inr tt,
     set_trace (λ t, t ++ flat_map (λ kp : string * Cred * Protocol,
                  [EvLogDebug kp.1.1; EvProtocolClose (oid kp.2)]) items) s).
Proof.
  revert s. induction items as [|[[domain c] p] items IH]; intros [P F fl sh n tr].
  - cbn. unfold set_trace. cbn. by rewrite app_nil_r.
  - cbn [for_]. erewrite bind_inr by reflexivity. rewrite IH.
    unfold set_trace. cbn. by rewrite <- !app_assoc.
Qed.

Lemma close_eq s :
  close s = (inr tt, mkState ∅ (files s) (open_faults s) (open_shelves s) (next_id s)
                             (trace s ++ close_events (_protocols s))).
Proof.
  unfold close. erewrite bind_inr by reflexivity.
  erewrite bind_inr by apply close_loop. by destruct s.
Qed.

Lemma closes_flat_map o (items : list (string * Cred * Protocol)) :
  closes o (flat_map (λ kp : string * Cred * Protocol,
              [EvLogDebug kp.1.1; EvProtocolClose (oid kp.2)]) items)
  = length (List.filter (λ kp : string * Cred * Protocol, Nat.eqb (oid kp.2) o) items).
Proof.
  unfold closes. induction items as [|kp items IH]; [done|].
  cbn. destruct (Nat.eqb (oid kp.2) o); cbn; by rewrite IH.
Qed.

(** ** What a method sees of the state *)

Lemma shelve_open_frame f s s' :
  same_world s s' →
  match shelve_open f s, shelve_open f s' with
  | (inl e, t), (inl e', t') => e = e' ∧ same_world t t'
  | (inr db, t), (inr db', t') => shelf_file db = shelf_file db' ∧ same_world t t'
  | _, _ => False
  end.
Proof.
  destruct s as [P F fl sh n tr], s' as [P' F' fl' sh' n' tr'].
  intros [HF Hfl]. cbn in HF, Hfl. subst F' fl'. unfold_open. unfold same_world.
  destruct fl as [|[e|] fl]; cbn; destruct (F !! f) as [[d|]|] eqn:EF; cbn; done.
Qed.

Lemma unlinked_frame e f s s' :
  same_world s s' →
  same_world (unlinked e (matching f s) s) (unlinked e (matching f s') s').
Proof.
  destruct s as [P F fl sh n tr], s' as [P' F' fl' sh' n' tr'].
  intros [HF Hfl]. cbn in HF, Hfl. subst F' fl'. done.
Qed.

Lemma failover_enter_frame f s s' :
  same_world s s' →
  match failover_enter f s, failover_enter f s' with
  | (inl e, t), (inl e', t') => e = e' ∧ same_world t t'
  | (inr db, t), (inr db', t') => shelf_file db = shelf_file db' ∧ same_world t t'
  | _, _ => False
  end.
Proof.
  intros Hw. rewrite !failover_enter_eq.
  pose proof (shelve_open_frame f s s' Hw) as H1.
  destruct (shelve_open f s) as [[e|db] t], (shelve_open f s') as [[e'|db'] t'];
    try done.
  destruct H1 as [<- Hw1]. apply shelve_open_frame. by apply unlinked_frame.
Qed.

Lemma contains_frame key s s' :
  same_world s s' → result (__contains__ key) s = result (__contains__ key) s'.
Proof.
  intros Hw. unfold result, __contains__.
  cbv beta delta [shelve_open_with_failover mbind M_bind].
  pose proof (failover_enter_frame _storage_file s s' Hw) as H1.
  destruct (failover_enter _storage_file s) as [[e|[n f]] [P F fl sh m tr]],
           (failover_enter _storage_file s') as [[e'|[n' f']] [P' F' fl' sh' m' tr']];
    try done.
  - by destruct H1 as [<- _].
  - destruct H1 as [Hf [HF Hfl]]. cbn in Hf, HF, Hfl. subst f' F' fl'.
    run. by destruct PY2.
Qed.

(** * The claims *)

(** C1. For every domain D, credentials C and record R: after an insert of a
    handle whose service_endpoint, auth_type and retry_policy are those of R
    under the key (D, C), a lookup of (D, C) returns a handle with the fields
    of R. The insert returns whenever the environment imposes no failure on
    [shelve.open], and after every insert that returns the lookup succeeds. *)
Theorem insert_then_lookup (D : string) (C : Cred) (handle : Protocol)
    (R : string * string * RetryPolicy) (s : State) :
  record_of handle = R →
  (open_faults s = [] → result (__setitem__ (D, C) handle) s = inr tt) ∧
  (result (__setitem__ (D, C) handle) s = inr tt →
   ∃ p, result (__getitem__ (D, C)) (after (__setitem__ (D, C) handle) s) = inr p
        ∧ record_of p = R).
Proof.
  intros HR. unfold result, after.
  pose proof (setitem_spec (D, C) handle s) as Hs.
  destruct (__setitem__ (D, C) handle s) as [r s']. cbn. destruct Hs as [Hr Hb].
  split; [intros Hnil; by destruct (Hb Hnil)|].
  intros ->. destruct Hr as (HP & _). exists handle. split; [|done].
  erewrite getitem_hit; [done|]. by rewrite HP, lookup_insert_eq.
Qed.

(** C2. The value an insert writes to the persistent store does not depend on
    the credentials: neither on those of the key nor on those the handle
    carries. Two inserts for the same domain, of handles with the same
    service_endpoint, auth_type and retry_policy, leave the same files and make
    the same calls, and the value stored for the domain is exactly the triple
    (service_endpoint, auth_type, retry_policy). *)
Theorem persisted_value_has_no_credentials (D : string) (C1 C2 : Cred)
    (o1 o2 : nat) (endpoint auth : string) (policy : RetryPolicy) (c1 c2 : Cred)
    (s : State) :
  let h1 := mkProtocol o1 endpoint auth policy c1 in
  let h2 := mkProtocol o2 endpoint auth policy c2 in
  let s1 := after (__setitem__ (D, C1) h1) s in
  let s2 := after (__setitem__ (D, C2) h2) s in
  files s1 = files s2 ∧ trace s1 = trace s2 ∧
  result (__setitem__ (D, C1) h1) s = result (__setitem__ (D, C2) h2) s ∧
  (result (__setitem__ (D, C1) h1) s = inr tt →
   store s1 !! D = Some (endpoint, auth, policy)).
Proof.
  cbn zeta. split_and!.
  4: { unfold result, after.
       pose proof (setitem_spec (D, C1) (mkProtocol o1 endpoint auth policy c1) s) as Hs.
       destruct (__setitem__ _ _ s) as [r s']. cbn. destruct Hs as [Hr _].
       intros ->. destruct Hr as (_ & (d & _ & ->) & _). apply lookup_insert_eq. }
  all: unfold result, after, __setitem__; cbn;
    cbv beta delta [shelve_open_with_failover mbind M_bind];
    destruct (failover_enter _storage_file s) as [[e|db] s']; [done|];
    run; by destruct PY2.
Qed.

(** C8. A lookup of a key that is in the in-memory index returns the handle
    the index holds for it and leaves the whole state as it was: no call
    reaches the persistent store. *)
Theorem lookup_hit_reads_no_store (key : string * Cred) (protocol : Protocol)
    (s : State) :
  _protocols s !! key = Some protocol →
  result (__getitem__ key) s = inr protocol ∧
  after (__getitem__ key) s = s.
Proof. intros Hp. unfold result, after. by rewrite (getitem_hit _ _ _ Hp). Qed.

(** C10. A remove of (D, C1) deletes the persistent entry of the domain D
    whatever the credentials, and from the in-memory index the key (D, C1)
    only: every other key keeps its entry, in particular (D, C2) for any other
    credentials C2. The store has lost D after the call in every case; what
    the call does to the files is the same for every credential component;
    when it returns the index is the old one without (D, C1); and it returns
    whenever the environment imposes no failure on [shelve.open]. *)
Theorem remove_keeps_other_credentials (D : string) (C1 C2 : Cred) (s : State) :
  C1 ≠ C2 →
  let s' := after (__delitem__ (D, C1)) s in
  store s' !! D = None ∧
  files s' = files (after (__delitem__ (D, C2)) s) ∧
  _protocols s' !! (D, C2) = _protocols s !! (D, C2) ∧
  (∀ key, key ≠ (D, C1) → _protocols s' !! key = _protocols s !! key) ∧
  (result (__delitem__ (D, C1)) s = inr tt →
   _protocols s' = delete (D, C1) (_protocols s)) ∧
  (open_faults s = [] →
   result (__delitem__ (D, C1)) s = inr tt ∧
   _protocols s' !! (D, C1) = None ∧
   store s' = delete D (store s)).
Proof.
  intros Hne. cbn zeta.
  assert (∀ key, key ≠ (D, C1) →
            _protocols (after (__delitem__ (D, C1)) s) !! key = _protocols s !! key)
    as Hframe.
  { intros key Hkey. unfold after. pose proof (delitem_spec (D, C1) s) as Hs.
    destruct (__delitem__ _ s) as [[e|[]] s']; cbn; destruct Hs as [Hr _].
    - by destruct Hr as [-> _].
    - destruct Hr as [-> _]. by apply lookup_delete_ne. }
  split_and!.
  - unfold after. pose proof (delitem_spec (D, C1) s) as Hs.
    destruct (__delitem__ _ s) as [[e|[]] s']; cbn; destruct Hs as [Hr _].
    + destruct Hr as (_ & _ & Hf). unfold store. by rewrite Hf.
    + destruct Hr as (_ & (d & _ & ->) & _). apply lookup_delete_eq.
  - unfold after, __delitem__; cbn.
    cbv beta delta [shelve_open_with_failover mbind M_bind].
    destruct (failover_enter _storage_file s) as [[e|[n f]] [P F fl sh m tr]]; [done|].
    run. destruct (dict_of (F !! f) !! D); cbn; destruct PY2; cbn;
      by destruct (P !! (D, C1)), (P !! (D, C2)).
  - apply Hframe. congruence.
  - exact Hframe.
  - unfold result, after. pose proof (delitem_spec (D, C1) s) as Hs.
    destruct (__delitem__ _ s) as [r s']; cbn; destruct Hs as [Hr _].
    intros ->. by destruct Hr as (-> & _).
  - intros Hnil. unfold result, after. pose proof (delitem_spec (D, C1) s) as Hs.
    destruct (__delitem__ _ s) as [r s']; cbn; destruct Hs as [Hr Hb].
    destruct (Hb Hnil) as (-> & _ & Hst). destruct Hr as (-> & _).
    split_and!; [done|apply lookup_delete_eq|exact Hst].
Qed.

(** C4. After a remove of (D, C), contains for the domain D never answers
    true, and a remove raises nothing but the error of a failed second
    [shelve.open]: a key that is absent from either tier is no error. When the
    environment imposes no failure on [shelve.open], the remove returns,
    contains then answers false, and a second remove returns as well. *)
Theorem remove_then_contains_is_false (D : string) (C C' : Cred) (s : State) :
  let s1 := after (__delitem__ (D, C)) s in
  result (__contains__ (D, C')) s1 ≠ inr true ∧
  (∀ s0 e, result (__delitem__ (D, C)) s0 = inl e →
           result (failover_enter _storage_file) s0 = inl e) ∧
  (open_faults s = [] →
   result (__delitem__ (D, C)) s = inr tt ∧
   result (__contains__ (D, C')) s1 = inr false ∧
   result (__delitem__ (D, C)) s1 = inr tt).
Proof.
  cbn zeta. unfold after.
  pose proof (delitem_spec (D, C) s) as Hs.
  destruct (__delitem__ (D, C) s) as [r s1] eqn:E1. cbn [fst snd] in *.
  destruct Hs as [Hr Hb].
  assert (store s1 !! D = None) as Hgone.
  { destruct r as [e|[]].
    - destruct Hr as (_ & _ & Hf). unfold store. by rewrite Hf.
    - destruct Hr as (_ & (d & _ & ->) & _). apply lookup_delete_eq. }
  split_and!.
  - unfold result. pose proof (contains_spec (D, C') s1) as Hc.
    destruct (__contains__ (D, C') s1) as [[e|b] s2]; [done|]. cbn.
    destruct Hc as (_ & [Hc _] & _). intros [= ->]. cbn in Hc.
    rewrite Hgone in Hc. by destruct Hc as [? ?].
  - intros s0 e. unfold result. pose proof (delitem_spec (D, C) s0) as Hs.
    destruct (__delitem__ (D, C) s0) as [r0 s0']. cbn. destruct Hs as [Hr0 _].
    intros ->. by destruct Hr0 as (_ & ? & _).
  - intros Hnil. destruct (Hb Hnil) as (-> & Hnil1 & _). unfold result.
    rewrite E1. cbn. split_and!; [done| |].
    + pose proof (contains_spec (D, C') s1) as Hc.
      destruct (__contains__ (D, C') s1) as [r2 s2]. cbn.
      destruct Hc as (_ & _ & Hc). destruct (Hc Hnil1) as (-> & _). cbn.
      rewrite Hgone. by rewrite bool_decide_false by (by intros [? ?]).
    + pose proof (delitem_spec (D, C) s1) as Hs.
      destruct (__delitem__ (D, C) s1) as [r3 s3]. cbn.
      destruct Hs as [_ Hs]. by destruct (Hs Hnil1) as (-> & _).
Qed.

(** C3, as amended. In an environment that imposes no failure on
    [shelve.open], contains, lookup, insert, clear and close keep the
    invariant that every key of the in-memory index has its domain in the
    persistent store; a remove of (D, C) keeps it when the index holds no other
    key of the domain D. *)
Theorem operations_keep_invariant (o : op) (s : State) :
  open_faults s = [] →
  Inv s →
  (∀ D C, o = Remove (D, C) → ∀ C', C' ≠ C → _protocols s !! (D, C') = None) →
  Inv (after (run o) s) ∧ open_faults (after (run o) s) = [].
Proof.
  intros Hnil HI Hrem. unfold after, Inv in *. destruct o as [key|key|key p|key| |]; cbn.
  - unfold mbind, M_bind. pose proof (contains_spec key s) as Hs.
    destruct (__contains__ key s) as [r s']. destruct Hs as (HP & _ & Hb).
    destruct (Hb Hnil) as (-> & ? & Hst). cbn. by rewrite HP, Hst.
  - unfold mbind, M_bind. destruct (_protocols s !! key) as [p|] eqn:Hp.
    { by rewrite (getitem_hit _ _ _ Hp). }
    pose proof (getitem_miss_spec key s Hp) as Hs.
    destruct (__getitem__ key s) as [[e|p] s']; cbn; destruct Hs as (Hr & Hb);
      destruct (Hb Hnil) as (? & Hst & _); (split; [|done]); rewrite Hst.
    + by destruct Hr as [-> _].
    + destruct Hr as (_ & Hin & _ & -> & _). apply map_Forall_insert_2; eauto.
  - unfold mbind, M_bind. pose proof (setitem_spec key p s) as Hs.
    destruct (__setitem__ key p s) as [r s']. destruct Hs as (Hr & Hb).
    destruct (Hb Hnil) as (-> & ? & Hst). cbn. destruct Hr as (-> & _).
    split; [|done]. rewrite Hst. apply map_Forall_insert_2.
    + rewrite lookup_insert_eq. eauto.
    + eapply map_Forall_impl; [exact HI|]. intros k x Hk. cbn in *.
      destruct (decide (key.1 = k.1)) as [->|Hne].
      * rewrite lookup_insert_eq. eauto.
      * by rewrite lookup_insert_ne.
  - destruct key as [D C].
    unfold mbind, M_bind. pose proof (delitem_spec (D, C) s) as Hs.
    destruct (__delitem__ (D, C) s) as [r s']. destruct Hs as (Hr & Hb).
    destruct (Hb Hnil) as (-> & ? & Hst). cbn. destruct Hr as (-> & _).
    split; [|done]. rewrite Hst. intros [D' C'] p' Hk. cbn.
    apply lookup_delete_Some in Hk as [Hne Hk].
    destruct (decide (D' = D)) as [->|HD].
    + rewrite (Hrem D C eq_refl C') in Hk by congruence. done.
    + rewrite lookup_delete_ne by done. by apply (HI _ _ Hk).
  - unfold mbind, M_bind. pose proof (clear_spec s) as Hs.
    destruct (clear s) as [r s']. destruct Hs as (Hr & Hb).
    destruct (Hb Hnil) as (-> & ?). cbn. destruct Hr as (-> & _).
    split; [|done]. apply map_Forall_empty.
  - unfold mbind, M_bind. rewrite close_eq. cbn. split; [|done]. apply map_Forall_empty.
Qed.


Lemma attempts_app t t' : attempts (t ++ t') = attempts t + attempts t'.
Proof. unfold attempts. by rewrite List.filter_app, length_app. Qed.

Lemma attempts_unlinks e (l : list string) :
  attempts (flat_map (λ g, [EvLogWarning g e; EvUnlink g]) l) = 0.
Proof. unfold attempts. induction l as [|g l IH]; [done|]. cbn. exact IH. Qed.

(** C5. When [shelve.open] fails, the open routine unlinks every file whose
    name starts with the file name and no other, then calls [shelve.open] a
    second and last time, whose outcome is the outcome of the routine: the
    [with] statement goes on with its body as if nothing had happened when
    that call succeeds, and raises its exception when it fails. *)
Theorem failover_deletes_and_retries_once (filename : string) (e : exn)
    (s s1 : State) :
  shelve_open filename s = (inl e, s1) →
  let s2 := unlinked e (matching filename s1) s1 in
  (∀ g, String.prefix filename g = true → files s2 !! g = None) ∧
  (∀ g, String.prefix filename g = false → files s2 !! g = files s !! g) ∧
  failover_enter filename s = shelve_open filename s2 ∧
  attempts (trace (after (failover_enter filename) s)) = attempts (trace s) + 2 ∧
  (∀ A (body : shelf → M A) db s3,
     shelve_open filename s2 = (inr db, s3) →
     shelve_open_with_failover filename body s
     = (a ← body db; failover_exit db ;; mret a) s3) ∧
  (∀ A (body : shelf → M A) e' s3,
     shelve_open filename s2 = (inl e', s3) →
     shelve_open_with_failover filename body s = (inl e', s3)).
Proof.
  intros E1 s2.
  assert (failover_enter filename s = shelve_open filename s2) as Henter.
  { by rewrite failover_enter_eq, E1. }
  pose proof E1 as E1'. apply shelve_open_inl in E1' as [Hs1 _].
  split_and!.
  - intros g Hg. subst s2. by rewrite files_purged, Hg.
  - intros g Hg. subst s2. rewrite files_purged, Hg. by rewrite Hs1.
  - done.
  - unfold after. rewrite Henter.
    assert (attempts (trace s2) = attempts (trace s) + 1) as H2.
    { subst s2. rewrite Hs1. unfold unlinked, set_trace, set_files. cbn [trace].
      rewrite !attempts_app, attempts_unlinks. cbn. lia. }
    destruct (shelve_open filename s2) as [[e2|db] s3] eqn:E2.
    + apply shelve_open_inl in E2 as [-> _]. cbn [trace snd].
      rewrite attempts_app, H2. cbn. lia.
    + apply shelve_open_inr in E2 as (_ & -> & _). cbn [trace snd].
      rewrite attempts_app, H2. cbn. lia.
  - intros A body db s3 E2. unfold shelve_open_with_failover.
    erewrite bind_inr; [done|]. by rewrite Henter.
  - intros A body e' s3 E2. unfold shelve_open_with_failover.
    erewrite bind_inl; [done|]. by rewrite Henter.
Qed.

(** A storage file of garbage bytes, in an environment that imposes no
    failure: the open routine succeeds and the store is empty afterwards. *)
Lemma corrupt_store_recovers (filename : string) (s : State) :
  files s !! filename = Some Garbage → open_faults s = [] →
  ∃ db s', failover_enter filename s = (inr db, s') ∧
           files s' !! filename = Some (Shelf ∅).
Proof.
  intros Hg Hnil. pose proof (failover_enter_spec filename s) as Hs.
  destruct (failover_enter filename s) as [[e|db] s'].
  - by destruct Hs as (_ & _ & _ & ?).
  - destruct Hs as (_ & _ & _ & _ & (d & Hf & Hd) & _). exists db, s'.
    split; [done|]. rewrite Hg in Hd. cbn in Hd. by destruct Hd as [->| ->].
Qed.

Lemma closed_handles_flat_map (items : list (string * Cred * Protocol)) :
  closed_handles (flat_map (λ kp : string * Cred * Protocol,
                    [EvLogDebug kp.1.1; EvProtocolClose (oid kp.2)]) items)
  = (λ kp : string * Cred * Protocol, oid kp.2) <$> items.
Proof.
  unfold closed_handles. induction items as [|kp items IH]; [done|].
  cbn. by rewrite <- IH.
Qed.

(** C7. [close()] calls [close()] on the handle of every entry of the
    in-memory index, once per entry and on nothing else; it empties the index
    and touches no file. Hence contains answers after it what it answered
    before, and, the environment imposing no failure on [shelve.open], a later
    lookup for a domain of the persistent store builds a new handle with the
    factory. *)
Theorem close_closes_every_entry (s : State) :
  let s' := after close s in
  result close s = inr tt ∧
  trace s' = trace s ++ close_events (_protocols s) ∧
  closed_handles (close_events (_protocols s))
  = (λ kp : string * Cred * Protocol, oid kp.2) <$> map_to_list (_protocols s) ∧
  (∀ o, closes o (close_events (_protocols s)) = bindings o (_protocols s)) ∧
  _protocols s' = ∅ ∧
  files s' = files s ∧
  (∀ key, result (__contains__ key) s' = result (__contains__ key) s) ∧
  (∀ D C v, open_faults s = [] → store s !! D = Some v →
     ∃ p, result (__getitem__ (D, C)) s' = inr p ∧
          record_of p = v ∧ credentials p = C ∧ oid p = S (next_id s) ∧
          ∃ evs, trace (after (__getitem__ (D, C)) s')
                 = trace s' ++ evs ++ [EvProtocolNew (oid p)]).
Proof.
  cbn zeta. unfold result at 1, after. rewrite close_eq. cbn [fst snd].
  set (s' := mkState _ _ _ _ _ _).
  split_and!; try done.
  - apply closed_handles_flat_map.
  - intros o. apply closes_flat_map.
  - intros key. by apply contains_frame.
  - intros D C v Hnil Hv. unfold result.
    pose proof (getitem_miss_spec (D, C) s' (lookup_empty _)) as Hs.
    destruct (__getitem__ (D, C) s') as [r s'']. cbn. destruct Hs as (Hr & Hb).
    destruct (Hb Hnil) as (_ & _ & Hres). unfold store in Hres, Hv. cbn in Hres.
    rewrite Hv in Hres. destruct Hres as [p ->]. exists p.
    destruct Hr as (Hp & Hin & _ & _ & Htr & _). unfold store in Hin. cbn in Hin.
    rewrite Hv in Hin. injection Hin as <-. rewrite Hp. cbn. split_and!; try done.
    destruct Htr as [evs Htr]. exists evs. by rewrite Hp in Htr.
Qed.

(** * Further properties of the module *)

Lemma closes_app o t t' : closes o (t ++ t') = closes o t + closes o t'.
Proof. unfold closes. by rewrite List.filter_app, length_app. Qed.

Lemma closes_unlinks o e (l : list string) :
  closes o (flat_map (λ g, [EvLogWarning g e; EvUnlink g]) l) = 0.
Proof. unfold closes. induction l as [|g l IH]; [done|]. cbn. exact IH. Qed.

(** What the open routine adds to the trace: one or two calls of
    [shelve.open], and no call of a protocol's [close()]. *)
Lemma failover_enter_trace f s :
  ∃ evs, trace (after (failover_enter f) s) = trace s ++ evs ∧
         (∀ o, closes o evs = 0) ∧
         (attempts evs = 1 ∨ attempts evs = 2).
Proof.
  unfold after. rewrite failover_enter_eq.
  destruct (shelve_open f s) as [[e|db] s1] eqn:E1.
  - apply shelve_open_inl in E1 as [-> _].
    set (s1 := mkState _ _ _ _ _ _).
    set (l := matching f s1).
    assert (trace (unlinked e l s1)
            = trace s ++ [EvShelveOpen f false]
                ++ flat_map (λ g, [EvLogWarning g e; EvUnlink g]) l) as Hu.
    { unfold unlinked, set_trace, set_files, s1. cbn. by rewrite <- app_assoc. }
    destruct (shelve_open f _) as [[e2|db] s2] eqn:E2.
    + apply shelve_open_inl in E2 as [-> _]. cbn [snd trace]. rewrite Hu.
      eexists. rewrite <- !app_assoc. split; [reflexivity|]. split.
      * intros o. rewrite !closes_app, closes_unlinks. done.
      * right. rewrite !attempts_app, attempts_unlinks. done.
    + apply shelve_open_inr in E2 as (_ & -> & _). cbn [snd trace]. rewrite Hu.
      eexists. rewrite <- !app_assoc. split; [reflexivity|]. split.
      * intros o. rewrite !closes_app, closes_unlinks. done.
      * right. rewrite !attempts_app, attempts_unlinks. done.
  - apply shelve_open_inr in E1 as (_ & -> & _). cbn [snd trace].
    eexists. split; [reflexivity|]. split; [done|by left].
Qed.

Ltac enter_tr s :=
  unfold result, after;
  cbv beta delta [shelve_open_with_failover mbind M_bind];
  let Et := fresh "Et" in
  pose proof (failover_enter_trace _storage_file s) as Et; unfold after in Et;
  destruct (failover_enter _storage_file s) as [[?e|?db] [?P ?F ?fl ?sh ?m ?tr]];
  cbn [snd trace] in Et; destruct Et as (evs & -> & Hcl & Hat).

Ltac count_events :=
  cbn; unfold attempts, closes in *;
  split;
  [intros ?; rewrite ?List.filter_app, ?length_app;
   repeat match goal with
          | H : ∀ o, length _ = 0 |- _ => rewrite H
          end; cbn; lia
  |rewrite ?List.filter_app, ?length_app; cbn; lia].

Lemma contains_trace key s :
  (∀ o, closes o (trace (after (__contains__ key) s)) = closes o (trace s)) ∧
  (attempts (trace s) + 1 ≤ attempts (trace (after (__contains__ key) s)) ∧
   attempts (trace (after (__contains__ key) s)) ≤ attempts (trace s) + 2)%nat.
Proof.
  unfold __contains__. enter_tr s.
  - count_events.
  - run. destruct PY2; count_events.
Qed.

Lemma setitem_trace key p s :
  (∀ o, closes o (trace (after (__setitem__ key p) s)) = closes o (trace s)) ∧
  (attempts (trace s) + 1 ≤ attempts (trace (after (__setitem__ key p) s)) ∧
   attempts (trace (after (__setitem__ key p) s)) ≤ attempts (trace s) + 2)%nat.
Proof.
  unfold __setitem__. enter_tr s.
  - count_events.
  - run. destruct PY2; count_events.
Qed.

Lemma delitem_trace key s :
  (∀ o, closes o (trace (after (__delitem__ key) s)) = closes o (trace s)) ∧
  (attempts (trace s) + 1 ≤ attempts (trace (after (__delitem__ key) s)) ∧
   attempts (trace (after (__delitem__ key) s)) ≤ attempts (trace s) + 2)%nat.
Proof.
  unfold __delitem__. enter_tr s.
  - count_events.
  - run. destruct (dict_of _ !! _); cbn; destruct PY2; cbn;
      destruct (P !! key); count_events.
Qed.

Lemma clear_trace s :
  (∀ o, closes o (trace (after clear s)) = closes o (trace s)) ∧
  (attempts (trace s) + 1 ≤ attempts (trace (after clear s)) ∧
   attempts (trace (after clear s)) ≤ attempts (trace s) + 2)%nat.
Proof.
  unfold clear. enter_tr s.
  - count_events.
  - run. destruct PY2; count_events.
Qed.

Lemma getitem_miss_trace key s :
  _protocols s !! key = None →
  (∀ o, closes o (trace (after (__getitem__ key) s)) = closes o (trace s)) ∧
  (attempts (trace s) + 1 ≤ attempts (trace (after (__getitem__ key) s)) ∧
   attempts (trace (after (__getitem__ key) s)) ≤ attempts (trace s) + 2)%nat.
Proof.
  intros Hmiss. unfold __getitem__, after.
  erewrite bind_inr by (unfold gets; by rewrite Hmiss). destruct key as [domain creds].
  enter_tr s.
  - count_events.
  - run. destruct (dict_of _ !! _) as [[[endpoint auth] policy]|]; cbn;
      [destruct PY2|]; count_events.
Qed.

Lemma attempts_close_events (m : gmap (string * Cred) Protocol) :
  attempts (close_events m) = 0.
Proof.
  unfold close_events, attempts.
  induction (map_to_list m) as [|kp l IH]; [done|]. cbn. exact IH.
Qed.

(** X1. Only [close()] closes handles: contains, lookup, insert, remove and
    clear call [close()] on no protocol object, not even on those they drop
    from the index. *)
Theorem only_close_closes_handles (o : op) (s : State) (n : nat) :
  o ≠ Close →
  closes n (trace (after (run o) s)) = closes n (trace s).
Proof.
  intros Ho. destruct o as [key|key|key p|key| |]; [..|done].
  - pose proof (contains_trace key s) as [Hc _]. specialize (Hc n).
    unfold after in *. cbn. unfold mbind, M_bind.
    by destruct (__contains__ key s) as [[e|b] s'].
  - destruct (_protocols s !! key) as [p|] eqn:Hp.
    { unfold after. cbn. unfold mbind, M_bind. by rewrite (getitem_hit _ _ _ Hp). }
    pose proof (getitem_miss_trace key s Hp) as [Hc _]. specialize (Hc n).
    unfold after in *. cbn. unfold mbind, M_bind.
    by destruct (__getitem__ key s) as [[e|b] s'].
  - pose proof (setitem_trace key p s) as [Hc _]. specialize (Hc n).
    unfold after in *. cbn. unfold mbind, M_bind.
    by destruct (__setitem__ key p s) as [[e|b] s'].
  - pose proof (delitem_trace key s) as [Hc _]. specialize (Hc n).
    unfold after in *. cbn. unfold mbind, M_bind.
    by destruct (__delitem__ key s) as [[e|b] s'].
  - pose proof (clear_trace s) as [Hc _]. specialize (Hc n).
    unfold after in *. cbn. unfold mbind, M_bind.
    by destruct (clear s) as [[e|b] s'].
Qed.

(** X2. No operation calls [shelve.open] more than twice: an operation that
    goes to the persistent store calls it once or twice, [close()] and a
    lookup answered by the index not at all. *)
Theorem at_most_two_opens (o : op) (s : State) :
  if opens_store o s
  then (attempts (trace s) + 1 ≤ attempts (trace (after (run o) s)) ∧
        attempts (trace (after (run o) s)) ≤ attempts (trace s) + 2)%nat
  else attempts (trace (after (run o) s)) = attempts (trace s).
Proof.
  destruct o as [key|key|key p|key| |]; cbn [opens_store].
  - pose proof (contains_trace key s) as [_ Hc].
    unfold after in *. cbn. unfold mbind, M_bind.
    by destruct (__contains__ key s) as [[e|b] s'].
  - destruct (_protocols s !! key) as [p|] eqn:Hp.
    { rewrite bool_decide_false by done.
      unfold after. cbn. unfold mbind, M_bind. by rewrite (getitem_hit _ _ _ Hp). }
    rewrite bool_decide_true by done.
    pose proof (getitem_miss_trace key s Hp) as [_ Hc].
    unfold after in *. cbn. unfold mbind, M_bind.
    by destruct (__getitem__ key s) as [[e|b] s'].
  - pose proof (setitem_trace key p s) as [_ Hc].
    unfold after in *. cbn. unfold mbind, M_bind.
    by destruct (__setitem__ key p s) as [[e|b] s'].
  - pose proof (delitem_trace key s) as [_ Hc].
    unfold after in *. cbn. unfold mbind, M_bind.
    by destruct (__delitem__ key s) as [[e|b] s'].
  - pose proof (clear_trace s) as [_ Hc].
    unfold after in *. cbn. unfold mbind, M_bind.
    by destruct (clear s) as [[e|b] s'].
  - unfold after. cbn [run opens_store]. unfold mbind, M_bind, mret, M_ret.
    rewrite close_eq. cbn [snd trace].
    rewrite attempts_app, attempts_close_events. lia.
Qed.


(** X4. An operation that raises leaves the in-memory index as it was: the
    persistent store is written first, and the index only after that
    succeeded. *)
Theorem failed_operation_keeps_index (o : op) (e : exn) (s : State) :
  result (run o) s = inl e →
  _protocols (after (run o) s) = _protocols s.
Proof.
  unfold result, after. destruct o as [key|key|key p|key| |]; cbn.
  - unfold mbind, M_bind. pose proof (contains_spec key s) as Hs.
    destruct (__contains__ key s) as [[e'|b] s']; cbn [fst snd]; [|done].
    by destruct Hs as [-> _].
  - unfold mbind, M_bind. destruct (_protocols s !! key) as [p|] eqn:Hp.
    { by rewrite (getitem_hit _ _ _ Hp). }
    pose proof (getitem_miss_spec key s Hp) as Hs.
    destruct (__getitem__ key s) as [[e'|p] s']; cbn [fst snd]; [|done].
    by destruct Hs as [[-> _] _].
  - unfold mbind, M_bind. pose proof (setitem_spec key p s) as Hs.
    destruct (__setitem__ key p s) as [[e'|[]] s']; cbn [fst snd]; [|done].
    by destruct Hs as [[-> _] _].
  - unfold mbind, M_bind. pose proof (delitem_spec key s) as Hs.
    destruct (__delitem__ key s) as [[e'|[]] s']; cbn [fst snd]; [|done].
    by destruct Hs as [[-> _] _].
  - unfold mbind, M_bind. pose proof (clear_spec s) as Hs.
    destruct (clear s) as [[e'|[]] s']; cbn [fst snd]; [|done].
    by destruct Hs as [[-> _] _].
  - unfold mbind, M_bind. by rewrite close_eq.
Qed.

(** X5. A lookup for a key that is not in the index and a domain that is not
    in the persistent store raises [KeyError] and changes neither tier. *)
Theorem lookup_miss_raises_KeyError (D : string) (C : Cred) (s : State) :
  _protocols s !! (D, C) = None →
  store s !! D = None →
  open_faults s = [] →
  result (__getitem__ (D, C)) s = inl KeyError ∧
  _protocols (after (__getitem__ (D, C)) s) = _protocols s ∧
  store (after (__getitem__ (D, C)) s) = store s.
Proof.
  intros Hmiss Hstore Hnil. unfold result, after.
  pose proof (getitem_miss_spec (D, C) s Hmiss) as Hs.
  destruct (__getitem__ (D, C) s) as [r s']. cbn [fst snd]. destruct Hs as [Hr Hb].
  destruct (Hb Hnil) as (_ & Hst & Hres). cbn in Hres. rewrite Hstore in Hres.
  subst r. by destruct Hr as [-> _].
Qed.

(** X6. The exception of a failed lookup skips the [close()] of the open
    routine: when [shelve.open] succeeded and the lookup raises, the shelf it
    opened stays open, under Python 2 as well. *)
Theorem failed_lookup_leaves_shelf_open (key : string * Cred) (e : exn) (s : State) :
  _protocols s !! key = None →
  open_faults s = [] →
  result (__getitem__ key) s = inl e →
  e = KeyError ∧
  open_shelves (after (__getitem__ key) s) = next_id s :: open_shelves s.
Proof.
  intros Hmiss Hnil. unfold __getitem__, result, after.
  erewrite bind_inr by (unfold gets; by rewrite Hmiss). destruct key as [domain creds].
  enter s. run. rewrite Hfile. cbn.
  destruct (d !! domain) as [[[endpoint auth] policy]|] eqn:Hv; cbn.
  - by destruct PY2.
  - by intros [= <-].
Qed.

(** X7. A lookup that returned is answered by the index from then on: the
    same lookup again returns the same handle and changes nothing. *)
Theorem lookup_is_cached (key : string * Cred) (p : Protocol) (s : State) :
  result (__getitem__ key) s = inr p →
  __getitem__ key (after (__getitem__ key) s)
  = (inr p, after (__getitem__ key) s).
Proof.
  unfold result, after. destruct (_protocols s !! key) as [q|] eqn:Hq.
  - rewrite (getitem_hit _ _ _ Hq). cbn. intros [= ->]. by apply getitem_hit.
  - pose proof (getitem_miss_spec key s Hq) as Hs.
    destruct (__getitem__ key s) as [[e|p'] s']; cbn [fst snd]; [done|].
    intros [= ->]. destruct Hs as ((_ & _ & _ & HP & _) & _).
    apply getitem_hit. by rewrite HP, lookup_insert_eq.
Qed.

(** X8. The discovery record of a domain serves every credential: after an
    insert under (D, C1), a lookup of (D, C2) that the index cannot answer
    builds a new handle with the record of the inserted one and the
    credentials C2, and the index then holds both. *)
Theorem insert_serves_other_credentials (D : string) (C1 C2 : Cred)
    (h : Protocol) (s : State) :
  open_faults s = [] →
  C1 ≠ C2 →
  _protocols s !! (D, C2) = None →
  let s1 := after (__setitem__ (D, C1) h) s in
  let s2 := after (__getitem__ (D, C2)) s1 in
  ∃ p, result (__getitem__ (D, C2)) s1 = inr p ∧
       record_of p = record_of h ∧ credentials p = C2 ∧
       oid p = S (next_id s1) ∧
       _protocols s2 !! (D, C1) = Some h ∧ _protocols s2 !! (D, C2) = Some p.
Proof.
  intros Hnil Hne Hmiss. cbn zeta. unfold result, after.
  pose proof (setitem_spec (D, C1) h s) as Hs.
  destruct (__setitem__ (D, C1) h s) as [r s1]. cbn [fst snd]. destruct Hs as [Hr Hb].
  destruct (Hb Hnil) as (-> & Hnil1 & Hst1). destruct Hr as (HP1 & _).
  assert (_protocols s1 !! (D, C2) = None) as Hmiss1.
  { rewrite HP1, lookup_insert_ne by congruence. done. }
  pose proof (getitem_miss_spec (D, C2) s1 Hmiss1) as Hs.
  destruct (__getitem__ (D, C2) s1) as [r s2]. cbn [fst snd]. destruct Hs as [Hr Hb2].
  destruct (Hb2 Hnil1) as (_ & _ & Hres). cbn in Hres.
  rewrite Hst1, lookup_insert_eq in Hres. destruct Hres as [p ->]. exists p.
  destruct Hr as (Hp & Hin & _ & HP2 & _). cbn in Hin.
  rewrite Hst1, lookup_insert_eq in Hin.
  assert (record_of p = record_of h) as Hrec by congruence.
  split_and!; try done.
  - by rewrite Hp.
  - by rewrite Hp.
  - rewrite HP2, lookup_insert_ne, HP1, lookup_insert_eq by congruence. done.
  - by rewrite HP2, lookup_insert_eq.
Qed.

(** X9. The last insert for a domain decides the persisted record, whatever
    the credentials, and the index is not refreshed: after inserts of h1 under
    (D, C1) and of h2 under (D, C2), the store holds the record of h2 while a
    lookup of (D, C1) still returns h1. *)
Theorem last_insert_decides_the_record (D : string) (C1 C2 : Cred)
    (h1 h2 : Protocol) (s : State) :
  open_faults s = [] →
  C1 ≠ C2 →
  let s2 := after (__setitem__ (D, C2) h2) (after (__setitem__ (D, C1) h1) s) in
  store s2 !! D = Some (record_of h2) ∧
  __getitem__ (D, C1) s2 = (inr h1, s2) ∧
  __getitem__ (D, C2) s2 = (inr h2, s2).
Proof.
  intros Hnil Hne. cbn zeta. unfold after.
  pose proof (setitem_spec (D, C1) h1 s) as Hs.
  destruct (__setitem__ (D, C1) h1 s) as [r s1]. cbn [fst snd]. destruct Hs as [Hr Hb].
  destruct (Hb Hnil) as (-> & Hnil1 & Hst1). destruct Hr as (HP1 & _).
  pose proof (setitem_spec (D, C2) h2 s1) as Hs.
  destruct (__setitem__ (D, C2) h2 s1) as [r s2]. cbn [fst snd]. destruct Hs as [Hr Hb2].
  destruct (Hb2 Hnil1) as (-> & _ & Hst2). destruct Hr as (HP2 & _).
  split_and!.
  - by rewrite Hst2, lookup_insert_eq.
  - apply getitem_hit.
    rewrite HP2, lookup_insert_ne, HP1, lookup_insert_eq by congruence. done.
  - apply getitem_hit. by rewrite HP2, lookup_insert_eq.
Qed.

(** X10. What an insert persisted is there for every cache object on the same
    files, such as the one of another process: contains answers true for the
    domain, and a lookup that its own index cannot answer builds a handle with
    the inserted record and the credentials of the lookup. *)
Theorem insert_visible_to_other_process (D : string) (C C' : Cred) (h : Protocol)
    (s t : State) :
  result (__setitem__ (D, C) h) s = inr tt →
  files t = files (after (__setitem__ (D, C) h) s) →
  open_faults t = [] →
  result (__contains__ (D, C')) t = inr true ∧
  (_protocols t !! (D, C') = None →
   ∃ p, result (__getitem__ (D, C')) t = inr p ∧
        record_of p = record_of h ∧ credentials p = C').
Proof.
  unfold result, after. pose proof (setitem_spec (D, C) h s) as Hs.
  destruct (__setitem__ (D, C) h s) as [r s1]. cbn [fst snd]. destruct Hs as [Hr _].
  intros -> Hfiles Hnil. destruct Hr as (_ & (d & _ & Hst1) & _).
  assert (store t !! D = Some (record_of h)) as Hin.
  { unfold store in *. rewrite Hfiles, Hst1. apply lookup_insert_eq. }
  split.
  - pose proof (contains_spec (D, C') t) as Hc.
    destruct (__contains__ (D, C') t) as [r t']. cbn [fst snd].
    destruct Hc as (_ & _ & Hb). destruct (Hb Hnil) as (-> & _). cbn.
    rewrite Hin. by rewrite bool_decide_true by eauto.
  - intros Hmiss. pose proof (getitem_miss_spec (D, C') t Hmiss) as Hg.
    destruct (__getitem__ (D, C') t) as [r t']. cbn [fst snd].
    destruct Hg as [Hr Hb]. destruct (Hb Hnil) as (_ & _ & Hres). cbn in Hres.
    rewrite Hin in Hres. destruct Hres as [p ->]. exists p.
    destruct Hr as (Hp & Hin' & _). cbn in Hin'. rewrite Hin in Hin'.
    split_and!; [done|congruence|by rewrite Hp].
Qed.


(** X12. After an insert for the domain D, contains answers true for D. *)
Theorem insert_then_contains (D : string) (C C' : Cred) (h : Protocol) (s : State) :
  open_faults s = [] →
  result (__contains__ (D, C')) (after (__setitem__ (D, C) h) s) = inr true.
Proof.
  intros Hnil. unfold result, after. pose proof (setitem_spec (D, C) h s) as Hs.
  destruct (__setitem__ (D, C) h s) as [r s1]. cbn [fst snd]. destruct Hs as [_ Hb].
  destruct (Hb Hnil) as (_ & Hnil1 & Hst1).
  pose proof (contains_spec (D, C') s1) as Hc.
  destruct (__contains__ (D, C') s1) as [r2 s2]. cbn [fst snd].
  destruct Hc as (_ & _ & Hb2). destruct (Hb2 Hnil1) as (-> & _). cbn.
  rewrite Hst1. cbn. rewrite lookup_insert_eq. by rewrite bool_decide_true by eauto.
Qed.

(** X13. An insert and a remove for the domain D leave the persisted record
    of every other domain as it was. *)
Theorem other_domains_untouched (D D' : string) (C : Cred) (h : Protocol)
    (s : State) :
  open_faults s = [] →
  D' ≠ D →
  store (after (__setitem__ (D, C) h) s) !! D' = store s !! D' ∧
  store (after (__delitem__ (D, C)) s) !! D' = store s !! D'.
Proof.
  intros Hnil Hne. unfold after. split.
  - pose proof (setitem_spec (D, C) h s) as Hs.
    destruct (__setitem__ (D, C) h s) as [r s1]. cbn [fst snd]. destruct Hs as [_ Hb].
    destruct (Hb Hnil) as (_ & _ & ->). cbn. by rewrite lookup_insert_ne.
  - pose proof (delitem_spec (D, C) s) as Hs.
    destruct (__delitem__ (D, C) s) as [r s1]. cbn [fst snd]. destruct Hs as [_ Hb].
    destruct (Hb Hnil) as (_ & _ & ->). cbn. by rewrite lookup_delete_ne.
Qed.

(** X14. After a remove of (D, C), a lookup of (D, C) raises [KeyError]. *)
Theorem remove_then_lookup_raises (D : string) (C : Cred) (s : State) :
  open_faults s = [] →
  result (__getitem__ (D, C)) (after (__delitem__ (D, C)) s) = inl KeyError.
Proof.
  intros Hnil. unfold result, after. pose proof (delitem_spec (D, C) s) as Hs.
  destruct (__delitem__ (D, C) s) as [r s1]. cbn [fst snd]. destruct Hs as [Hr Hb].
  destruct (Hb Hnil) as (-> & Hnil1 & Hst1). destruct Hr as (HP1 & _).
  assert (_protocols s1 !! (D, C) = None) as Hmiss by (by rewrite HP1, lookup_delete_eq).
  pose proof (getitem_miss_spec (D, C) s1 Hmiss) as Hg.
  destruct (__getitem__ (D, C) s1) as [r2 s2]. cbn [fst snd]. destruct Hg as [_ Hb2].
  destruct (Hb2 Hnil1) as (_ & _ & Hres). cbn in Hres.
  by rewrite Hst1, lookup_delete_eq in Hres.
Qed.

(** X15. A remove of (D, C1) does not purge the handles of the domain that
    the index holds under other credentials: a lookup of (D, C2) still returns
    the handle of the index although contains no longer answers true for D. *)
Theorem remove_keeps_serving_other_credentials (D : string) (C1 C2 : Cred)
    (p : Protocol) (s : State) :
  C1 ≠ C2 →
  _protocols s !! (D, C2) = Some p →
  let s1 := after (__delitem__ (D, C1)) s in
  result (__getitem__ (D, C2)) s1 = inr p ∧
  result (__contains__ (D, C2)) s1 ≠ inr true.
Proof.
  intros Hne Hp. cbn zeta. unfold result, after.
  pose proof (delitem_spec (D, C1) s) as Hs.
  destruct (__delitem__ (D, C1) s) as [r s1]. cbn [fst snd]. destruct Hs as [Hr _].
  assert (_protocols s1 !! (D, C2) = Some p ∧ store s1 !! D = None) as [Hp1 Hgone].
  { destruct r as [e|[]].
    - destruct Hr as (-> & _ & Hf). unfold store. by rewrite Hf.
    - destruct Hr as (-> & (d & _ & ->) & _). cbn.
      rewrite lookup_delete_ne by congruence. by rewrite lookup_delete_eq. }
  split.
  - by rewrite (getitem_hit _ _ _ Hp1).
  - pose proof (contains_spec (D, C2) s1) as Hc.
    destruct (__contains__ (D, C2) s1) as [[e|b] s2]; [done|]. cbn.
    destruct Hc as (_ & [Hin _] & _). intros [= ->]. cbn in Hin.
    rewrite Hgone in Hin. by destruct (Hin eq_refl).
Qed.

(** X16. When the first [shelve.open] succeeds the open routine is that call:
    no file is unlinked and no other file is touched; the storage file keeps
    its content, or is created empty when it did not exist. *)
Theorem first_open_success_deletes_nothing (filename : string) (db : shelf)
    (s s1 : State) :
  shelve_open filename s = (inr db, s1) →
  failover_enter filename s = (inr db, s1) ∧
  trace s1 = trace s ++ [EvShelveOpen filename true] ∧
  files s1 !! filename = Some (Shelf (dict_of (files s !! filename))) ∧
  (∀ g, g ≠ filename → files s1 !! g = files s !! g).
Proof.
  intros E1. split; [by rewrite failover_enter_eq, E1|].
  apply shelve_open_inr in E1 as (_ & -> & _). cbn. split_and!; [done| |].
  - by rewrite lookup_insert_eq.
  - intros g Hg. by rewrite lookup_insert_ne.
Qed.

Lemma close_with_loop_protocols (pc : Protocol → M unit)
    (items : list (string * Cred * Protocol)) s :
  (∀ p t, _protocols (after (pc p) t) = _protocols t) →
  _protocols (after (for_ items (λ '((domain, _), protocol),
                log_debug domain ;; pc protocol)) s) = _protocols s.
Proof.
  intros Hpc. revert s. induction items as [|[[domain c] p] items IH]; intros s.
  - done.
  - unfold after in *. cbn [for_]. unfold mbind at 1, M_bind at 1.
    unfold mbind at 1, M_bind at 1. unfold log_debug at 1, emit, modify.
    specialize (Hpc p (set_trace (λ t, t ++ [EvLogDebug domain]) s)).
    destruct (pc p _) as [[e|[]] s1]; cbn [fst snd] in *.
    + by rewrite Hpc; destruct s.
    + rewrite IH, Hpc. by destruct s.
Qed.

(** X17. [__del__()] never raises. When the [close()] of a handle raises,
    [close()] of the cache raises too and does not reach the emptying of the
    index, and [__del__()] swallows the exception: the index is left as it
    was. *)
Theorem del_swallows_failed_close (pc : Protocol → M unit) (s : State) :
  (∀ p t, _protocols (after (pc p) t) = _protocols t) →
  result (del_with pc) s = inr tt ∧
  _protocols (after (del_with pc) s)
  = (if result (close_with pc) s is inr _ then ∅ else _protocols s) ∧
  _protocols (after (close_with pc) s) = _protocols (after (del_with pc) s).
Proof.
  intros Hpc. unfold del_with, try_except, close_with, result, after.
  erewrite bind_inr by reflexivity. unfold mbind, M_bind.
  pose proof (close_with_loop_protocols pc (map_to_list (_protocols s)) s Hpc) as Hl.
  unfold after in Hl.
  destruct (for_ _ _ s) as [[e|[]] s1]; cbn [fst snd] in *; by split_and!.
Qed.

Lemma after_run (o : op) (s : State) :
  after (run o) s =
  match o with
  | Contains key => after (__contains__ key) s
  | Lookup key => after (__getitem__ key) s
  | Insert key p => after (__setitem__ key p) s
  | Remove key => after (__delitem__ key) s
  | Clear => after clear s
  | Close => after close s
  end.
Proof.
  unfold after. destruct o as [key|key|key p|key| |]; cbn; unfold mbind, M_bind.
  - by destruct (__contains__ key s) as [[e|b] s'].
  - by destruct (__getitem__ key s) as [[e|b] s'].
  - by destruct (__setitem__ key p s) as [[e|b] s'].
  - by destruct (__delitem__ key s) as [[e|b] s'].
  - by destruct (clear s) as [[e|b] s'].
  - by destruct (close s) as [[e|b] s'].
Qed.

Lemma failover_enter_garbage f s :
  files s !! f = Some Garbage → open_faults s = [] →
  ∃ s', failover_enter f s = (inr (mkShelf (next_id s) f), s') ∧
        _protocols s' = _protocols s ∧
        files s' !! f = Some (Shelf ∅) ∧
        (∀ g, g ≠ f →
              files s' !! g = if String.prefix f g then None else files s !! g).
Proof.
  intros Hg Hnil. rewrite failover_enter_eq.
  destruct (shelve_open f s) as [[e|db] s1] eqn:E1.
  - apply shelve_open_inl in E1 as [-> _]. rewrite Hnil.
    set (s1 := mkState _ _ _ _ _ _).
    assert (∀ g, files (unlinked e (matching f s1) s1) !! g
                 = if String.prefix f g then None else files s !! g) as Hp.
    { intros g. by rewrite files_purged. }
    destruct (shelve_open f _) as [[e2|db] s2] eqn:E2.
    + apply shelve_open_inl in E2 as [_ Hwhy]. rewrite Hp, prefix_refl in Hwhy.
      cbn in Hwhy. by destruct Hwhy as [?|[[_ ?]|[? _]]].
    + apply shelve_open_inr in E2 as (-> & -> & _). eexists. split; [done|].
      cbn -[unlinked]. rewrite Hp, prefix_refl. cbn. split_and!.
      * by destruct s.
      * by rewrite lookup_insert_eq.
      * intros g Hne. by rewrite lookup_insert_ne, Hp.
  - apply shelve_open_inr in E1 as (_ & _ & Hno). done.
Qed.

Ltac enter_garbage s Hg Hnil :=
  unfold after;
  cbv beta delta [shelve_open_with_failover mbind M_bind];
  let s' := fresh "s'" in
  let E := fresh "E" in
  destruct (failover_enter_garbage _storage_file s Hg Hnil)
    as (s' & E & HP & Hfile & Hsib);
  rewrite E; destruct s' as [?P ?F ?fl ?sh ?m ?tr];
  cbn [_protocols files] in HP, Hfile, Hsib.

(** X18. A storage file that [shelve.open] rejects does not outlive one
    operation, when nothing else fails: [os.unlink] deletes the files it is
    given and the second [shelve.open] is not made to fail. An operation that
    goes to the persistent store then leaves a well-formed database in place
    of the rejected file, has deleted every other file whose name starts with
    the name of the storage file, and has left all other files as they
    were. *)
Theorem storage_file_is_repaired (o : op) (s : State) :
  files s !! _storage_file = Some Garbage →
  open_faults s = [] →
  opens_store o s = true →
  (∃ d, files (after (run o) s) !! _storage_file = Some (Shelf d)) ∧
  (∀ g, g ≠ _storage_file →
        files (after (run o) s) !! g
        = if String.prefix _storage_file g then None else files s !! g).
Proof.
  intros Hg Hnil. rewrite after_run.
  destruct o as [key|key|key p|key| |]; cbn [opens_store].
  - intros _. unfold __contains__. enter_garbage s Hg Hnil. run.
    destruct PY2; cbn; (split; [by eexists|done]).
  - intros Hmiss%bool_decide_eq_true. unfold __getitem__. unfold after.
    erewrite bind_inr by (unfold gets; by rewrite Hmiss).
    destruct key as [domain creds]. enter_garbage s Hg Hnil. run.
    rewrite Hfile. cbn. rewrite lookup_empty. cbn. split; [by eexists|done].
  - intros _. unfold __setitem__. enter_garbage s Hg Hnil. run.
    destruct PY2; cbn; rewrite lookup_insert_eq;
      (split; [by eexists|]); intros g Hne; rewrite lookup_insert_ne by done;
      by apply Hsib.
  - intros _. unfold __delitem__. enter_garbage s Hg Hnil. run.
    rewrite Hfile. cbn. rewrite lookup_empty. cbn.
    destruct PY2; cbn; destruct (_ !! key); cbn; (split; [by eexists|done]).
  - intros _. unfold clear. enter_garbage s Hg Hnil. run.
    destruct PY2; cbn; rewrite lookup_insert_eq;
      (split; [by eexists|]); intros g Hne; rewrite lookup_insert_ne by done;
      by apply Hsib.
  - done.
Qed.

(** X19. A storage file of bytes that [shelve.open] rejects is an empty
    store to every operation: in an environment without failures, each
    operation returns or raises what it would with no storage file at all, and
    leaves the same index and the same persistent store. *)
Theorem corrupt_store_behaves_empty (o : op) (s : State) :
  files s !! _storage_file = Some Garbage →
  open_faults s = [] →
  let s0 := set_files (delete _storage_file) s in
  result (run o) s = result (run o) s0 ∧
  _protocols (after (run o) s) = _protocols (after (run o) s0) ∧
  store (after (run o) s) = store (after (run o) s0).
Proof.
  intros Hg Hnil s0.
  assert (store s = ∅) as He by (unfold store; by rewrite Hg).
  assert (store s0 = ∅) as He0.
  { unfold store, s0. destruct s. cbn. by rewrite lookup_delete_eq. }
  assert (open_faults s0 = []) as Hnil0 by (by destruct s).
  assert (_protocols s0 = _protocols s) as HP0 by (by destruct s).
  clearbody s0.
  unfold result, after. destruct o as [key|key|key p|key| |]; cbn; unfold mbind, M_bind.
  - pose proof (contains_spec key s) as Hs.
    pose proof (contains_spec key s0) as Hs0.
    destruct (__contains__ key s) as [r s'], (__contains__ key s0) as [r' s0'].
    destruct Hs as (HP & _ & Hb), Hs0 as (HP' & _ & Hb').
    destruct (Hb Hnil) as (-> & _ & Hst), (Hb' Hnil0) as (-> & _ & Hst').
    cbn. rewrite HP, HP', HP0, Hst, Hst', He, He0. done.
  - destruct (_protocols s !! key) as [p|] eqn:Hp.
    + rewrite (getitem_hit key p s Hp), (getitem_hit key p s0) by (by rewrite HP0).
      cbn. by rewrite HP0, He, He0.
    + pose proof (getitem_miss_spec key s Hp) as Hs.
      assert (_protocols s0 !! key = None) as Hp0 by (by rewrite HP0).
      pose proof (getitem_miss_spec key s0 Hp0) as Hs0.
      destruct (__getitem__ key s) as [r s'], (__getitem__ key s0) as [r' s0'].
      destruct Hs as (Hr & Hb), Hs0 as (Hr' & Hb').
      destruct (Hb Hnil) as (_ & Hst & Hres), (Hb' Hnil0) as (_ & Hst' & Hres').
      rewrite He, lookup_empty in Hres. rewrite He0, lookup_empty in Hres'.
      subst r r'. cbn. destruct Hr as [-> _], Hr' as [-> _].
      by rewrite HP0, Hst, Hst', He, He0.
  - pose proof (setitem_spec key p s) as Hs.
    pose proof (setitem_spec key p s0) as Hs0.
    destruct (__setitem__ key p s) as [r s'], (__setitem__ key p s0) as [r' s0'].
    destruct Hs as (Hr & Hb), Hs0 as (Hr' & Hb').
    destruct (Hb Hnil) as (-> & _ & Hst), (Hb' Hnil0) as (-> & _ & Hst').
    destruct Hr as (HP & _), Hr' as (HP' & _). cbn.
    by rewrite HP, HP', Hst, Hst', HP0, He, He0.
  - pose proof (delitem_spec key s) as Hs.
    pose proof (delitem_spec key s0) as Hs0.
    destruct (__delitem__ key s) as [r s'], (__delitem__ key s0) as [r' s0'].
    destruct Hs as (Hr & Hb), Hs0 as (Hr' & Hb').
    destruct (Hb Hnil) as (-> & _ & Hst), (Hb' Hnil0) as (-> & _ & Hst').
    destruct Hr as (HP & _), Hr' as (HP' & _). cbn.
    by rewrite HP, HP', Hst, Hst', HP0, He, He0.
  - pose proof (clear_spec s) as Hs.
    pose proof (clear_spec s0) as Hs0.
    destruct (clear s) as [r s'], (clear s0) as [r' s0'].
    destruct Hs as (Hr & Hb), Hs0 as (Hr' & Hb').
    destruct (Hb Hnil) as (-> & _), (Hb' Hnil0) as (-> & _).
    destruct Hr as (HP & Hst & _), Hr' as (HP' & Hst' & _). cbn.
    by rewrite HP, HP', Hst, Hst'.
  - rewrite !close_eq. cbn. split_and!; [done..|].
    unfold store in *. cbn. congruence.
Qed.

Lemma close_with_protocol_close : close_with protocol_close = close.
Proof. reflexivity. Qed.

Lemma del_with_protocol_close : del_with protocol_close = __del__.
Proof. reflexivity. Qed.

(** X21. [close()] twice: the second call finds the index empty, calls the
    [close()] of no handle and changes nothing. *)
Theorem close_twice_is_noop (s : State) :
  close (after close s) = (inr tt, after close s).
Proof.
  unfold after. rewrite !close_eq. cbn [snd _protocols files open_faults
    open_shelves next_id trace].
  unfold close_events. rewrite map_to_list_empty. cbn. by rewrite app_nil_r.
Qed.

(** X22. Contains, lookup and [close()] never write the persistent store:
    in an environment without failures they leave every record as it was. *)
Theorem reads_leave_store_unchanged (o : op) (s : State) :
  open_faults s = [] →
  (∀ key p, o ≠ Insert key p) → (∀ key, o ≠ Remove key) → o ≠ Clear →
  store (after (run o) s) = store s.
Proof.
  intros Hnil Hi Hr Hc. rewrite after_run. unfold after.
  destruct o as [key|key|key p|key| |].
  - pose proof (contains_spec key s) as Hs.
    destruct (__contains__ key s) as [r s']. destruct Hs as (_ & _ & Hb).
    cbn [snd]. by destruct (Hb Hnil) as (_ & _ & ->).
  - destruct (_protocols s !! key) as [p|] eqn:Hp.
    { by rewrite (getitem_hit _ _ _ Hp). }
    pose proof (getitem_miss_spec key s Hp) as Hs.
    destruct (__getitem__ key s) as [r s']. destruct Hs as (_ & Hb).
    cbn [snd]. by destruct (Hb Hnil) as (_ & -> & _).
  - by destruct (Hi key p).
  - by destruct (Hr key).
  - done.
  - rewrite close_eq. by destruct s.
Qed.

(** X23. An insert is an idempotent overwrite: the same insert again leaves
    the index and the persistent store as the first one left them. *)
Theorem insert_twice_is_insert_once (key : string * Cred) (h : Protocol) (s : State) :
  open_faults s = [] →
  let s1 := after (__setitem__ key h) s in
  let s2 := after (__setitem__ key h) s1 in
  result (__setitem__ key h) s1 = inr tt ∧
  _protocols s2 = _protocols s1 ∧ store s2 = store s1.
Proof.
  intros Hnil. cbn zeta. unfold result, after.
  pose proof (setitem_spec key h s) as Hs.
  destruct (__setitem__ key h s) as [r s1]. cbn [fst snd]. destruct Hs as [Hr Hb].
  destruct (Hb Hnil) as (-> & Hnil1 & Hst1). destruct Hr as (HP1 & _).
  pose proof (setitem_spec key h s1) as Hs.
  destruct (__setitem__ key h s1) as [r s2]. cbn [fst snd]. destruct Hs as [Hr Hb2].
  destruct (Hb2 Hnil1) as (-> & _ & Hst2). destruct Hr as (HP2 & _).
  split_and!; [done| |].
  - by rewrite HP2, HP1, insert_insert_eq.
  - by rewrite Hst2, Hst1, insert_insert_eq.
Qed.

End Cache.

(** C9, as amended. The name is a function of the format version, the major
    and minor version of the runtime and the user. When [getuser()] raises
    [KeyError] the name is computed with the fixed user [exchangelib] and no
    error leaves the function; any other exception of [getuser()] leaves it
    unchanged. *)
Theorem shelve_filename_spec (rt : Runtime) :
  (∀ user, getuser rt = inr user →
     shelve_filename rt
     = inr (storage_identity 2 (version_info rt).1 (version_info rt).2 user)) ∧
  (getuser rt = inl KeyError →
     shelve_filename rt
     = inr (storage_identity 2 (version_info rt).1 (version_info rt).2 "exchangelib")) ∧
  (∀ e, getuser rt = inl e → e ≠ KeyError → shelve_filename rt = inl e) ∧
  (∀ rt', version_info rt' = version_info rt → getuser rt' = getuser rt →
     shelve_filename rt' = shelve_filename rt).
Proof.
  unfold shelve_filename, storage_identity.
  destruct rt as [[major minor] user tmp]. cbn. split_and!.
  - by intros u ->.
  - by intros ->.
  - intros e -> He. by destruct e.
  - intros [[major' minor'] user' tmp']. cbn. by intros [= -> ->] ->.
Qed.

(** * The claims on concrete inputs *)

Example shelve_filename_py37 :
  shelve_filename (mkRuntime (3, 7) (inr "erik") (inr "/tmp"))
  = inr "exchangelib.2.cache.erik.py37".
Proof. vm_compute. reflexivity. Qed.

Example storage_py27 :
  AUTODISCOVER_PERSISTENT_STORAGE (mkRuntime (2, 7) (inl KeyError) (inr "/tmp"))
  = inr "/tmp/exchangelib.2.cache.exchangelib.py27".
Proof. vm_compute. reflexivity. Qed.

Lemma shelve_filename_spec_witness :
  let rt := mkRuntime (2, 7) (inl KeyError) (inr "/tmp") in
  getuser rt = inl KeyError ∧
  shelve_filename rt = inr "exchangelib.2.cache.exchangelib.py27".
Proof.
  intros rt. split; [reflexivity|].
  destruct (shelve_filename_spec rt) as (_ & H & _).
  rewrite H by reflexivity. vm_compute. reflexivity.
Defined.

(** C9 as stated fails: [getuser()] raises [ImportError] where neither the
    environment nor a [pwd] module names the user, and [except KeyError] lets
    it through. *)
Lemma shelve_filename_import_error :
  let rt := mkRuntime (3, 7) (inl ImportError) (inr "/tmp") in
  getuser rt = inl ImportError ∧
  shelve_filename rt = inl ImportError ∧
  ¬ (∃ name, shelve_filename rt = inr name).
Proof. cbn. split_and!; [done..|]. by intros [name ?]. Qed.

Lemma insert_then_lookup_witness :
  let handle := mkProtocol 7 "https://mail.example.com/EWS/Exchange.asmx" "NTLM" 10 1 in
  let f := "/tmp/exchangelib.2.cache.erik.py37" in
  record_of handle = ("https://mail.example.com/EWS/Exchange.asmx", "NTLM", 10) ∧
  ∃ p, result (__getitem__ true f ("example.com", 1))
         (after (__setitem__ true f ("example.com", 1) handle) initial) = inr p
       ∧ record_of p = ("https://mail.example.com/EWS/Exchange.asmx", "NTLM", 10).
Proof.
  intros handle f. split; [reflexivity|].
  destruct (insert_then_lookup true f "example.com" 1 handle _ initial eq_refl)
    as [Hreturns Hlookup].
  apply Hlookup, Hreturns. reflexivity.
Defined.

Lemma persisted_value_witness :
  let f := "/tmp/exchangelib.2.cache.erik.py37" in
  let h := mkProtocol 7 "https://mail.example.com/EWS/Exchange.asmx" "NTLM" 10 1 in
  result (__setitem__ true f ("example.com", 1) h) initial = inr tt ∧
  store f (after (__setitem__ true f ("example.com", 1) h) initial) !! "example.com"
  = Some ("https://mail.example.com/EWS/Exchange.asmx", "NTLM", 10).
Proof.
  intros f h. split; [vm_compute; reflexivity|].
  destruct (persisted_value_has_no_credentials true f "example.com" 1 2 7 8
              "https://mail.example.com/EWS/Exchange.asmx" "NTLM" 10 1 2 initial)
    as (_ & _ & _ & Hstored).
  apply Hstored. vm_compute. reflexivity.
Defined.

Lemma lookup_hit_witness :
  let p := mkProtocol 7 "https://mail.example.com/EWS/Exchange.asmx" "NTLM" 10 1 in
  let s := mkState {[ ("example.com", 1) := p ]} ∅ [] [] 8 [] in
  _protocols s !! ("example.com", 1) = Some p ∧
  result (__getitem__ false "/tmp/exchangelib.2.cache.erik.py37" ("example.com", 1)) s
  = inr p ∧
  after (__getitem__ false "/tmp/exchangelib.2.cache.erik.py37" ("example.com", 1)) s
  = s.
Proof.
  intros p s. split; [vm_compute; reflexivity|].
  apply (lookup_hit_reads_no_store false _ ("example.com", 1) p s).
  vm_compute. reflexivity.
Defined.

Lemma remove_keeps_other_credentials_witness :
  let f := "/tmp/exchangelib.2.cache.erik.py37" in
  let p := mkProtocol 7 "https://mail.example.com/EWS/Exchange.asmx" "NTLM" 10 1 in
  let q := mkProtocol 8 "https://mail.example.com/EWS/Exchange.asmx" "NTLM" 10 2 in
  let r := mkProtocol 9 "https://mail.example.org/EWS/Exchange.asmx" "basic" 10 1 in
  let s := run_all true f [Insert ("example.com", 1) p; Insert ("example.com", 2) q;
                           Insert ("example.org", 1) r]
                   initial in
  (1 ≠ 2 ∧ ("example.org", 1) ≠ ("example.com", 1) ∧ open_faults s = [] ∧
   _protocols s !! ("example.com", 1) = Some p ∧
   _protocols s !! ("example.com", 2) = Some q ∧
   _protocols s !! ("example.org", 1) = Some r ∧
   store f s !! "example.com"
   = Some ("https://mail.example.com/EWS/Exchange.asmx", "NTLM", 10)) ∧
  result (__delitem__ true f ("example.com", 1)) s = inr tt ∧
  store f (after (__delitem__ true f ("example.com", 1)) s) !! "example.com" = None ∧
  _protocols (after (__delitem__ true f ("example.com", 1)) s) !! ("example.com", 1)
  = None ∧
  _protocols (after (__delitem__ true f ("example.com", 1)) s) !! ("example.com", 2)
  = Some q ∧
  _protocols (after (__delitem__ true f ("example.com", 1)) s) !! ("example.org", 1)
  = Some r.
Proof.
  intros f p q r s.
  assert (1 ≠ 2) as Hne by lia.
  assert (("example.org", 1) ≠ ("example.com", 1)) as Hkey by discriminate.
  assert (open_faults s = []) as Hnil by (vm_compute; reflexivity).
  assert (_protocols s !! ("example.com", 1) = Some p) as Hp by (vm_compute; reflexivity).
  assert (_protocols s !! ("example.com", 2) = Some q) as Hq by (vm_compute; reflexivity).
  assert (_protocols s !! ("example.org", 1) = Some r) as Hr by (vm_compute; reflexivity).
  assert (store f s !! "example.com"
          = Some ("https://mail.example.com/EWS/Exchange.asmx", "NTLM", 10)) as Hin
    by (vm_compute; reflexivity).
  split; [exact (conj Hne (conj Hkey (conj Hnil (conj Hp (conj Hq (conj Hr Hin))))))|].
  destruct (remove_keeps_other_credentials true f "example.com" 1 2 s Hne)
    as (Hstore & _ & Hother & Hframe & _ & Hbenign).
  destruct (Hbenign Hnil) as (Hres & Hgone & _).
  exact (conj Hres (conj Hstore (conj Hgone
           (conj (eq_trans Hother Hq) (eq_trans (Hframe _ Hkey) Hr))))).
Defined.

Lemma remove_then_contains_witness :
  let f := "/tmp/exchangelib.2.cache.erik.py37" in
  let p := mkProtocol 7 "https://mail.example.com/EWS/Exchange.asmx" "NTLM" 10 1 in
  let s := run_all true f [Insert ("example.com", 1) p] initial in
  open_faults s = [] ∧
  result (__delitem__ true f ("example.com", 1)) s = inr tt ∧
  result (__contains__ true f ("example.com", 1))
         (after (__delitem__ true f ("example.com", 1)) s) = inr false ∧
  result (__delitem__ true f ("example.com", 1))
         (after (__delitem__ true f ("example.com", 1)) s) = inr tt.
Proof.
  intros f p s. split; [vm_compute; reflexivity|].
  destruct (remove_then_contains_is_false true f "example.com" 1 1 s)
    as (_ & _ & Hbenign).
  apply Hbenign. vm_compute. reflexivity.
Defined.

Lemma operations_keep_invariant_witness :
  let f := "/tmp/exchangelib.2.cache.erik.py37" in
  let p := mkProtocol 7 "https://mail.example.com/EWS/Exchange.asmx" "NTLM" 10 1 in
  let s := mkState {[ ("example.com", 1) := p ]}
                   {[ f := Shelf {[ "example.com" := record_of p ]} ]} [] [] 8 [] in
  (open_faults s = [] ∧ Inv f s ∧
   ∀ C', C' ≠ 1 → _protocols s !! ("example.com", C') = None) ∧
  Inv f (after (run true f (Remove ("example.com", 1))) s).
Proof.
  intros f p s.
  assert (∀ C', C' ≠ 1 → _protocols s !! ("example.com", C') = None) as Hother.
  { intros C' HC. apply lookup_singleton_ne. congruence. }
  assert (Inv f s) as Hinv.
  { apply (bool_decide_unpack _). vm_compute. exact I. }
  split; [split_and!; [reflexivity|exact Hinv|exact Hother]|].
  apply (operations_keep_invariant true f (Remove ("example.com", 1)) s);
    [reflexivity|exact Hinv|].
  intros D C [= <- <-]. exact Hother.
Defined.

(** C3 as stated fails. Two inserts for one domain under different credentials
    and a remove of the first key, from the initial state: the index still
    holds the second key, the store has lost the domain. *)
Lemma remove_breaks_invariant :
  let f := "/tmp/exchangelib.2.cache.erik.py37" in
  let p := mkProtocol 7 "https://mail.example.com/EWS/Exchange.asmx" "NTLM" 10 1 in
  let q := mkProtocol 8 "https://mail.example.com/EWS/Exchange.asmx" "NTLM" 10 2 in
  let s := run_all true f [Insert ("example.com", 1) p; Insert ("example.com", 2) q]
                   initial in
  let s' := after (run true f (Remove ("example.com", 1))) s in
  Inv f s ∧
  result (run true f (Remove ("example.com", 1))) s = inr VNone ∧
  _protocols s' !! ("example.com", 2) = Some q ∧
  store f s' !! "example.com" = None ∧
  ¬ Inv f s'.
Proof.
  cbn zeta. split_and!.
  - apply (bool_decide_unpack _). vm_compute. exact I.
  - vm_compute. reflexivity.
  - vm_compute. reflexivity.
  - vm_compute. reflexivity.
  - apply (bool_decide_eq_false_1 _). vm_compute. reflexivity.
Qed.

Lemma failover_witness :
  let f := "/tmp/exchangelib.2.cache.erik.py37" in
  let s := mkState (∅ : gmap (string * nat) (@Protocol nat nat))
             {[ f := Garbage; f +:+ ".db" := Garbage;
                "/tmp/unrelated" := Shelf ∅ ]} [] [] 0 [] in
  let s1 := after (shelve_open f) s in
  let s2 := unlinked DbmError (matching f s1) s1 in
  shelve_open f s = (inl DbmError, s1) ∧
  files s2 !! (f +:+ ".db") = None ∧
  files s2 !! "/tmp/unrelated" = Some (Shelf ∅) ∧
  attempts (trace (after (failover_enter f) s)) = 2 ∧
  result (__contains__ false f ("example.com", 1)) s = inr false.
Proof.
  intros f s s1 s2.
  assert (shelve_open f s = (inl DbmError, s1)) as Hfail by (vm_compute; reflexivity).
  destruct (failover_deletes_and_retries_once false f DbmError s s1 Hfail)
    as (Hgone & Hkept & _ & Hattempts & _).
  split_and!.
  - exact Hfail.
  - apply Hgone. vm_compute. reflexivity.
  - rewrite Hkept by (vm_compute; reflexivity). vm_compute. reflexivity.
  - exact Hattempts.
  - vm_compute. reflexivity.
Defined.

(** Both calls of [shelve.open] fail: the second exception reaches the caller
    after two attempts, and the files are gone. *)
Example failover_gives_up :
  let f := "/tmp/exchangelib.2.cache.erik.py37" in
  let s := mkState (∅ : gmap (string * nat) (@Protocol nat nat))
             {[ f := Shelf ∅ ]} [Some DbmError; Some OSError] [] 0 [] in
  result (__contains__ true f ("example.com", 1)) s = inl OSError ∧
  attempts (trace (after (__contains__ true f ("example.com", 1)) s)) = 2 ∧
  files (after (__contains__ true f ("example.com", 1)) s) !! f = None.
Proof. vm_compute. done. Qed.



Lemma close_witness :
  let f := "/tmp/exchangelib.2.cache.erik.py37" in
  let p := mkProtocol 7 "https://mail.example.com/EWS/Exchange.asmx" "NTLM" 10 1 in
  let s := run_all true f [Insert ("example.com", 1) p] initial in
  (open_faults s = [] ∧
   store f s !! "example.com"
   = Some ("https://mail.example.com/EWS/Exchange.asmx", "NTLM", 10)) ∧
  result close s = inr tt ∧
  closed_handles (close_events (_protocols s)) = [7] ∧
  _protocols (after close s) = ∅ ∧
  ∃ p', result (__getitem__ true f ("example.com", 1)) (after close s) = inr p' ∧
        record_of p' = ("https://mail.example.com/EWS/Exchange.asmx", "NTLM", 10) ∧
        credentials p' = 1 ∧ oid p' = S (next_id s).
Proof.
  intros f p s.
  assert (open_faults s = []) as Hnil by (vm_compute; reflexivity).
  assert (store f s !! "example.com"
          = Some ("https://mail.example.com/EWS/Exchange.asmx", "NTLM", 10)) as Hin
    by (vm_compute; reflexivity).
  assert ((λ kp : string * nat * Protocol, oid kp.2) <$> map_to_list (_protocols s)
          = [7]) as Hitems by (vm_compute; reflexivity).
  split; [exact (conj Hnil Hin)|].
  destruct (close_closes_every_entry true f s)
    as (Hres & _ & Hclosed & _ & Hempty & _ & _ & Hlookup).
  destruct (Hlookup "example.com" 1 _ Hnil Hin) as (p' & H1 & H2 & H3 & H4 & _).
  refine (conj Hres (conj (eq_trans Hclosed Hitems) (conj Hempty _))).
  exists p'. exact (conj H1 (conj H2 (conj H3 H4))).
Defined.

(** A handle that the index holds under two keys is an entry twice: [close()]
    reaches it once for each. *)
Example close_reaches_shared_handle_per_entry :
  let f := "/tmp/exchangelib.2.cache.erik.py37" in
  let p := mkProtocol 7 "https://mail.example.com/EWS/Exchange.asmx" "NTLM" 10 1 in
  let s := run_all true f [Insert ("example.com", 1) p; Insert ("example.org", 1) p]
                   initial in
  _protocols s !! ("example.com", 1) = Some p ∧
  _protocols s !! ("example.org", 1) = Some p ∧
  bindings (oid p) (_protocols s) = 2 ∧
  closes (oid p) (trace s) = 0 ∧
  closes (oid p) (trace (after close s)) = 2.
Proof. vm_compute. split_and!; done. Qed.

(** * Further properties on the storage identity *)

Lemma string_length_app (a b : string) :
  String.length (a +:+ b) = String.length a + String.length b.
Proof. induction a as [|c a IH]; [done|]. simpl. f_equal. exact IH. Qed.

Lemma string_app_inv_tail (x y b : string) : x +:+ b = y +:+ b → x = y.
Proof.
  revert y. induction x as [|c x IH]; intros [|c' y] E.
  - done.
  - apply (f_equal String.length) in E.
    rewrite !string_length_app in E. simpl in E. lia.
  - apply (f_equal String.length) in E.
    rewrite !string_length_app in E. simpl in E. lia.
  - simpl in E. injection E as -> E. f_equal. by apply IH.
Qed.

Lemma string_app_inv_head (a x y : string) : a +:+ x = a +:+ y → x = y.
Proof. induction a as [|c a IH]; [done|]. simpl. intros [= E]. by apply IH. Qed.

Lemma storage_identity_inj (v major minor : nat) (u1 u2 : string) :
  storage_identity v major minor u1 = storage_identity v major minor u2 → u1 = u2.
Proof.
  unfold storage_identity. intros E.
  do 3 apply string_app_inv_head in E.
  by apply string_app_inv_tail in E.
Qed.

Lemma shelve_filename_effective (rt : Runtime) (n : string) :
  shelve_filename rt = inr n →
  ∃ u, effective_user rt = Some u ∧
       n = storage_identity 2 (version_info rt).1 (version_info rt).2 u.
Proof.
  destruct rt as [[major minor] [e|user] t]; unfold shelve_filename, effective_user;
    cbn [version_info getuser fst snd]; [destruct (is_KeyError e)|];
    intros [= <-]; by eexists.
Qed.

(** X20. The storage name tells users apart as far as [getuser()] does. For
    two runtimes of the same Python version in which [shelve_filename()]
    returns, the two names are equal exactly when the user names that went
    into them are, where the user name of a [getuser()] that raised [KeyError]
    is the default one, 'exchangelib'. So two names that [getuser()] returns
    never share a storage name, whereas every user for whom [getuser()] raises
    [KeyError] shares the storage name of a user called 'exchangelib'. *)
Theorem storage_name_tells_users_apart (rt1 rt2 : Runtime) (n1 n2 : string) :
  version_info rt1 = version_info rt2 →
  shelve_filename rt1 = inr n1 →
  shelve_filename rt2 = inr n2 →
  n1 = n2 ↔ effective_user rt1 = effective_user rt2.
Proof.
  intros Hv E1 E2.
  apply shelve_filename_effective in E1 as (u1 & Hu1 & ->).
  apply shelve_filename_effective in E2 as (u2 & Hu2 & ->).
  rewrite Hu1, Hu2, Hv. split.
  - intros E. f_equal. by apply storage_identity_inj in E.
  - by intros [= ->].
Qed.

Lemma storage_name_tells_users_apart_witness :
  let rt1 := mkRuntime (3, 7) (inl KeyError) (inr "/tmp") in
  let rt2 := mkRuntime (3, 7) (inr "exchangelib") (inr "/tmp") in
  let rt3 := mkRuntime (3, 7) (inr "erik") (inr "/tmp") in
  (version_info rt1 = version_info rt2 ∧
   shelve_filename rt1 = inr "exchangelib.2.cache.exchangelib.py37" ∧
   shelve_filename rt2 = inr "exchangelib.2.cache.exchangelib.py37" ∧
   shelve_filename rt3 = inr "exchangelib.2.cache.erik.py37") ∧
  effective_user rt1 = effective_user rt2 ∧
  effective_user rt1 ≠ effective_user rt3.
Proof.
  intros rt1 rt2 rt3.
  assert (shelve_filename rt1 = inr "exchangelib.2.cache.exchangelib.py37") as E1
    by (vm_compute; reflexivity).
  assert (shelve_filename rt2 = inr "exchangelib.2.cache.exchangelib.py37") as E2
    by (vm_compute; reflexivity).
  assert (shelve_filename rt3 = inr "exchangelib.2.cache.erik.py37") as E3
    by (vm_compute; reflexivity).
  split; [exact (conj eq_refl (conj E1 (conj E2 E3)))|]. split.
  - exact (proj1 (storage_name_tells_users_apart rt1 rt2 _ _ eq_refl E1 E2) eq_refl).
  - intros E.
    pose proof (proj2 (storage_name_tells_users_apart rt1 rt3 _ _ eq_refl E1 E3) E).
    discriminate.
Defined.

(** * Further properties on concrete inputs *)

Lemma only_close_closes_handles_witness :
  let f := "/tmp/exchangelib.2.cache.erik.py37" in
  let p := mkProtocol 7 "https://mail.example.com/EWS/Exchange.asmx" "NTLM" 10 1 in
  let s := run_all true f [Insert ("example.com", 1) p] initial in
  Remove ("example.com", 1) ≠ @Close nat nat ∧
  closes 7 (trace (after (run true f (Remove ("example.com", 1))) s))
  = closes 7 (trace s).
Proof.
  intros f p s. split; [discriminate|].
  apply (only_close_closes_handles true f (Remove ("example.com", 1)) s 7).
  discriminate.
Defined.


Lemma failed_operation_keeps_index_witness :
  let f := "/tmp/exchangelib.2.cache.erik.py37" in
  let p := mkProtocol 7 "https://mail.example.com/EWS/Exchange.asmx" "NTLM" 10 1 in
  let q := mkProtocol 8 "https://mail.example.org/EWS/Exchange.asmx" "basic" 10 1 in
  let s := mkState {[ ("example.com", 1) := p ]}
                   {[ f := Shelf {[ "example.com" := record_of p ]} ]}
                   [Some DbmError; Some OSError] [] 9 [] in
  result (run true f (Insert ("example.org", 1) q)) s = inl OSError ∧
  _protocols (after (run true f (Insert ("example.org", 1) q)) s) = _protocols s.
Proof.
  intros f p q s.
  assert (result (run true f (Insert ("example.org", 1) q)) s = inl OSError) as E
    by (vm_compute; reflexivity).
  split; [exact E|].
  exact (failed_operation_keeps_index true f _ OSError s E).
Defined.

Lemma lookup_miss_raises_KeyError_witness :
  let f := "/tmp/exchangelib.2.cache.erik.py37" in
  (_protocols (@initial nat nat _ _) !! ("example.com", 1) = None ∧
   store f (@initial nat nat _ _) !! "example.com" = None ∧
   open_faults (@initial nat nat _ _) = []) ∧
  result (__getitem__ true f ("example.com", 1)) (@initial nat nat _ _)
  = inl KeyError.
Proof.
  intros f. split; [split_and!; vm_compute; reflexivity|].
  apply (lookup_miss_raises_KeyError true f "example.com" 1 initial);
    vm_compute; reflexivity.
Defined.

Lemma failed_lookup_leaves_shelf_open_witness :
  let f := "/tmp/exchangelib.2.cache.exchangelib.py27" in
  (_protocols (@initial nat nat _ _) !! ("example.com", 1) = None ∧
   open_faults (@initial nat nat _ _) = [] ∧
   result (__getitem__ true f ("example.com", 1)) (@initial nat nat _ _)
   = inl KeyError) ∧
  open_shelves (after (__getitem__ true f ("example.com", 1)) (@initial nat nat _ _))
  = [0].
Proof.
  intros f. split; [split_and!; vm_compute; reflexivity|].
  apply (failed_lookup_leaves_shelf_open true f ("example.com", 1) KeyError initial);
    vm_compute; reflexivity.
Defined.

Lemma lookup_is_cached_witness :
  let f := "/tmp/exchangelib.2.cache.erik.py37" in
  let s := mkState (∅ : gmap (string * nat) (@Protocol nat nat))
             {[ f := Shelf {[ "example.com" :=
                  ("https://mail.example.com/EWS/Exchange.asmx", "NTLM", 10) ]} ]}
             [] [] 0 [] in
  let p := mkProtocol 1 "https://mail.example.com/EWS/Exchange.asmx" "NTLM" 10 5 in
  result (__getitem__ true f ("example.com", 5)) s = inr p ∧
  __getitem__ true f ("example.com", 5)
    (after (__getitem__ true f ("example.com", 5)) s)
  = (inr p, after (__getitem__ true f ("example.com", 5)) s).
Proof.
  intros f s p.
  assert (result (__getitem__ true f ("example.com", 5)) s = inr p) as E
    by (vm_compute; reflexivity).
  split; [exact E|].
  exact (lookup_is_cached true f ("example.com", 5) p s E).
Defined.

Lemma insert_serves_other_credentials_witness :
  let f := "/tmp/exchangelib.2.cache.erik.py37" in
  let h := mkProtocol 7 "https://mail.example.com/EWS/Exchange.asmx" "NTLM" 10 1 in
  (open_faults (@initial nat nat _ _) = [] ∧ 1 ≠ 2 ∧
   _protocols (@initial nat nat _ _) !! ("example.com", 2) = None) ∧
  ∃ p, result (__getitem__ true f ("example.com", 2))
              (after (__setitem__ true f ("example.com", 1) h) initial) = inr p ∧
       record_of p = record_of h ∧ credentials p = 2.
Proof.
  intros f h. split; [split_and!; [reflexivity|lia|vm_compute; reflexivity]|].
  destruct (insert_serves_other_credentials true f "example.com" 1 2 h initial)
    as (p & H1 & H2 & H3 & _); [reflexivity|lia|vm_compute; reflexivity|].
  exists p. exact (conj H1 (conj H2 H3)).
Defined.

Lemma last_insert_decides_the_record_witness :
  let f := "/tmp/exchangelib.2.cache.erik.py37" in
  let h1 := mkProtocol 7 "https://old.example.com/EWS/Exchange.asmx" "NTLM" 10 1 in
  let h2 := mkProtocol 8 "https://new.example.com/EWS/Exchange.asmx" "basic" 10 2 in
  let s2 := after (__setitem__ true f ("example.com", 2) h2)
                  (after (__setitem__ true f ("example.com", 1) h1) initial) in
  (open_faults (@initial nat nat _ _) = [] ∧ 1 ≠ 2) ∧
  store f s2 !! "example.com" = Some (record_of h2) ∧
  __getitem__ true f ("example.com", 1) s2 = (inr h1, s2).
Proof.
  intros f h1 h2 s2. split; [split; [reflexivity|lia]|].
  destruct (last_insert_decides_the_record true f "example.com" 1 2 h1 h2 initial)
    as (H1 & H2 & _); [reflexivity|lia|].
  exact (conj H1 H2).
Defined.

Lemma insert_visible_to_other_process_witness :
  let f := "/tmp/exchangelib.2.cache.erik.py37" in
  let h := mkProtocol 7 "https://mail.example.com/EWS/Exchange.asmx" "NTLM" 10 1 in
  let s1 := after (__setitem__ false f ("example.com", 1) h) initial in
  let t := mkState (∅ : gmap (string * nat) (@Protocol nat nat)) (files s1) [] [] 0 [] in
  (result (__setitem__ false f ("example.com", 1) h) initial = inr tt ∧
   files t = files s1 ∧ open_faults t = [] ∧
   _protocols t !! ("example.com", 2) = None) ∧
  result (__contains__ false f ("example.com", 2)) t = inr true ∧
  ∃ p, result (__getitem__ false f ("example.com", 2)) t = inr p ∧
       record_of p = record_of h ∧ credentials p = 2.
Proof.
  intros f h s1 t.
  assert (result (__setitem__ false f ("example.com", 1) h) initial = inr tt) as E
    by (vm_compute; reflexivity).
  assert (_protocols t !! ("example.com", 2) = None) as Hmiss
    by (vm_compute; reflexivity).
  split; [split_and!; [exact E|reflexivity|reflexivity|exact Hmiss]|].
  destruct (insert_visible_to_other_process false f "example.com" 1 2 h initial t
              E eq_refl eq_refl) as [Hc Hl].
  split; [exact Hc|exact (Hl Hmiss)].
Defined.


Lemma insert_then_contains_witness :
  let f := "/tmp/exchangelib.2.cache.erik.py37" in
  let p := mkProtocol 7 "https://mail.example.com/EWS/Exchange.asmx" "NTLM" 10 1 in
  open_faults (@initial nat nat _ _) = [] ∧
  result (__contains__ true f ("example.com", 2))
         (after (__setitem__ true f ("example.com", 1) p) initial) = inr true.
Proof.
  intros f p. split; [reflexivity|].
  exact (insert_then_contains true f "example.com" 1 2 p initial eq_refl).
Defined.

Lemma other_domains_untouched_witness :
  let f := "/tmp/exchangelib.2.cache.erik.py37" in
  let p := mkProtocol 7 "https://mail.example.com/EWS/Exchange.asmx" "NTLM" 10 1 in
  let q := mkProtocol 8 "https://mail.example.org/EWS/Exchange.asmx" "basic" 10 1 in
  let s := run_all true f [Insert ("example.com", 1) p] initial in
  (open_faults s = [] ∧ "example.com" ≠ "example.org") ∧
  store f (after (__setitem__ true f ("example.org", 1) q) s) !! "example.com"
  = store f s !! "example.com" ∧
  store f (after (__delitem__ true f ("example.org", 1)) s) !! "example.com"
  = store f s !! "example.com".
Proof.
  intros f p q s.
  assert (open_faults s = []) as Hnil by (vm_compute; reflexivity).
  assert ("example.com" ≠ "example.org") as Hne by discriminate.
  split; [exact (conj Hnil Hne)|].
  exact (other_domains_untouched true f "example.org" "example.com" 1 q s Hnil Hne).
Defined.

Lemma remove_then_lookup_raises_witness :
  let f := "/tmp/exchangelib.2.cache.erik.py37" in
  let p := mkProtocol 7 "https://mail.example.com/EWS/Exchange.asmx" "NTLM" 10 1 in
  let s := run_all true f [Insert ("example.com", 1) p] initial in
  open_faults s = [] ∧
  result (__getitem__ true f ("example.com", 1))
         (after (__delitem__ true f ("example.com", 1)) s) = inl KeyError.
Proof.
  intros f p s.
  assert (open_faults s = []) as Hnil by (vm_compute; reflexivity).
  split; [exact Hnil|].
  exact (remove_then_lookup_raises true f "example.com" 1 s Hnil).
Defined.

Lemma remove_keeps_serving_other_credentials_witness :
  let f := "/tmp/exchangelib.2.cache.erik.py37" in
  let p := mkProtocol 7 "https://mail.example.com/EWS/Exchange.asmx" "NTLM" 10 1 in
  let q := mkProtocol 8 "https://mail.example.com/EWS/Exchange.asmx" "NTLM" 10 2 in
  let s := run_all true f [Insert ("example.com", 1) p; Insert ("example.com", 2) q]
                   initial in
  (1 ≠ 2 ∧ _protocols s !! ("example.com", 2) = Some q) ∧
  result (__getitem__ true f ("example.com", 2))
         (after (__delitem__ true f ("example.com", 1)) s) = inr q ∧
  result (__contains__ true f ("example.com", 2))
         (after (__delitem__ true f ("example.com", 1)) s) ≠ inr true.
Proof.
  intros f p q s.
  assert (1 ≠ 2) as Hne by lia.
  assert (_protocols s !! ("example.com", 2) = Some q) as Hq
    by (vm_compute; reflexivity).
  split; [exact (conj Hne Hq)|].
  exact (remove_keeps_serving_other_credentials true f "example.com" 1 2 q s Hne Hq).
Defined.

Lemma first_open_success_deletes_nothing_witness :
  let f := "/tmp/exchangelib.2.cache.erik.py37" in
  let s := mkState (∅ : gmap (string * nat) (@Protocol nat nat))
             {[ f +:+ ".db" := Garbage ]} [] [] 0 [] in
  let db := mkShelf 0 f in
  let s1 := after (shelve_open f) s in
  shelve_open f s = (inr db, s1) ∧
  failover_enter f s = (inr db, s1) ∧
  files s1 !! (f +:+ ".db") = Some Garbage.
Proof.
  intros f s db s1.
  assert (shelve_open f s = (inr db, s1)) as E by (vm_compute; reflexivity).
  destruct (first_open_success_deletes_nothing f db s s1 E) as (H1 & _ & _ & H2).
  split; [exact E|]. split; [exact H1|].
  rewrite H2 by discriminate. vm_compute. reflexivity.
Defined.

Lemma del_swallows_failed_close_witness :
  let p := mkProtocol 7 "https://mail.example.com/EWS/Exchange.asmx" "NTLM" 10 1 in
  let pc := λ q : @Protocol nat nat,
              if Nat.eqb (oid q) 7 then raise OSError else protocol_close q in
  let s := mkState {[ ("example.com", 1) := p ]} ∅ [] [] 8 [] in
  (∀ q t, _protocols (after (pc q) t) = _protocols t) ∧
  result (close_with pc) s = inl OSError ∧
  result (del_with pc) s = inr tt ∧
  _protocols (after (del_with pc) s) = _protocols s.
Proof.
  intros p pc s.
  assert (∀ q t, _protocols (after (pc q) t) = _protocols t) as Hpc.
  { intros q [P F fl sh n tr]. unfold pc, after.
    destruct (Nat.eqb (oid q) 7); reflexivity. }
  assert (result (close_with pc) s = inl OSError) as E by (vm_compute; reflexivity).
  destruct (del_swallows_failed_close pc s Hpc) as (H1 & H2 & _).
  rewrite E in H2.
  exact (conj Hpc (conj E (conj H1 H2))).
Defined.

Lemma storage_file_is_repaired_witness :
  let f := "/tmp/exchangelib.2.cache.erik.py37" in
  let other := "/tmp/exchangelib.2.cache.anna.py37" in
  let d : gmap string (string * string * nat) :=
    {[ "example.org" := ("https://mail.example.org/EWS/Exchange.asmx", "basic", 10) ]} in
  let s := mkState (∅ : gmap (string * nat) (@Protocol nat nat))
             {[ f := Garbage; f +:+ ".db" := Garbage; other := Shelf d ]} [] [] 0 [] in
  let s' := after (run true f (Contains ("example.com", 1))) s in
  (files s !! f = Some Garbage ∧ open_faults s = [] ∧
   opens_store (Contains ("example.com", 1)) s = true ∧
   f +:+ ".db" ≠ f ∧ other ≠ f) ∧
  (∃ d', files s' !! f = Some (Shelf d')) ∧
  files s' !! (f +:+ ".db") = None ∧
  files s' !! other = Some (Shelf d).
Proof.
  intros f other d s s'.
  assert (files s !! f = Some Garbage) as Hg by (vm_compute; reflexivity).
  assert (f +:+ ".db" ≠ f) as Hdb by discriminate.
  assert (other ≠ f) as Hother by discriminate.
  split; [exact (conj Hg (conj eq_refl (conj eq_refl (conj Hdb Hother))))|].
  destruct (storage_file_is_repaired true f (Contains ("example.com", 1)) s
              Hg eq_refl eq_refl) as (Hfile & Hsib).
  refine (conj Hfile (conj (eq_trans (Hsib _ Hdb) _) (eq_trans (Hsib _ Hother) _)));
    vm_compute; reflexivity.
Defined.

Lemma corrupt_store_behaves_empty_witness :
  let f := "/tmp/exchangelib.2.cache.erik.py37" in
  let p := mkProtocol 7 "https://mail.example.com/EWS/Exchange.asmx" "NTLM" 10 1 in
  let s := mkState (∅ : gmap (string * nat) (@Protocol nat nat))
             {[ f := Garbage ]} [] [] 0 [] in
  let o := Insert ("example.com", 1) p in
  (files s !! f = Some Garbage ∧ open_faults s = []) ∧
  result (run true f o) s = result (run true f o) (set_files (delete f) s) ∧
  store f (after (run true f o) s)
  = store f (after (run true f o) (set_files (delete f) s)).
Proof.
  intros f p s o.
  assert (files s !! f = Some Garbage) as Hg by (vm_compute; reflexivity).
  split; [exact (conj Hg eq_refl)|].
  destruct (corrupt_store_behaves_empty true f o s Hg eq_refl) as (H1 & _ & H2).
  exact (conj H1 H2).
Defined.

(** X24. The storage path is computed when the module is imported, and the
    import fails with the first exception that computation raises: the one of
    [tempfile.gettempdir()], which is evaluated first, or else, when a
    directory was found, the one of [getuser()] unless it is a [KeyError]. *)
Theorem import_fails_with_tempdir_or_getuser (rt : Runtime) (e : exn) :
  AUTODISCOVER_PERSISTENT_STORAGE rt = inl e
  ↔ gettempdir rt = inl e
    ∨ ((∃ tempdir, gettempdir rt = inr tempdir) ∧ getuser rt = inl e ∧ e ≠ KeyError).
Proof.
  unfold AUTODISCOVER_PERSISTENT_STORAGE, shelve_filename.
  destruct rt as [[major minor] [e'|user] [e''|tempdir]]; cbn;
    try destruct e'; cbn; split.
  all: try (intros [= <-]; (by left) || (right; split_and!; by eauto)).
  all: try (intros [[= <-]|([? [=]] & _)]; done).
  all: try (intros [[=]|(_ & [= <-] & ?)]; done).
  all: try (intros [=]).
Qed.

Lemma import_fails_with_tempdir_or_getuser_witness :
  let rt1 := mkRuntime (3, 7) (inl ImportError) (inr "/tmp") in
  let rt2 := mkRuntime (3, 7) (inl ImportError) (inl OSError) in
  ((∃ tempdir, gettempdir rt1 = inr tempdir) ∧
   getuser rt1 = inl ImportError ∧ ImportError ≠ KeyError ∧
   gettempdir rt2 = inl OSError) ∧
  AUTODISCOVER_PERSISTENT_STORAGE rt1 = inl ImportError ∧
  AUTODISCOVER_PERSISTENT_STORAGE rt2 = inl OSError.
Proof.
  intros rt1 rt2.
  assert (∃ tempdir, gettempdir rt1 = inr tempdir) as Hdir by (by exists "/tmp").
  assert (ImportError ≠ KeyError) as Hne by discriminate.
  split; [exact (conj Hdir (conj eq_refl (conj Hne eq_refl)))|]. split.
  - exact (proj2 (import_fails_with_tempdir_or_getuser rt1 ImportError)
             (or_intror (conj Hdir (conj eq_refl Hne)))).
  - exact (proj2 (import_fails_with_tempdir_or_getuser rt2 OSError)
             (or_introl eq_refl)).
Defined.

Lemma reads_leave_store_unchanged_witness :
  let f := "/tmp/exchangelib.2.cache.erik.py37" in
  let s := mkState (∅ : gmap (string * nat) (@Protocol nat nat))
             {[ f := Shelf {[ "example.com" :=
                  ("https://mail.example.com/EWS/Exchange.asmx", "NTLM", 10) ]} ]}
             [] [] 0 [] in
  open_faults s = [] ∧
  store f (after (run true f (Lookup ("example.com", 5))) s) = store f s.
Proof.
  intros f s. split; [reflexivity|].
  apply (reads_leave_store_unchanged true f (Lookup ("example.com", 5)) s);
    [reflexivity|discriminate..].
Defined.

Lemma insert_twice_is_insert_once_witness :
  let f := "/tmp/exchangelib.2.cache.erik.py37" in
  let h := mkProtocol 7 "https://mail.example.com/EWS/Exchange.asmx" "NTLM" 10 1 in
  let s1 := after (__setitem__ true f ("example.com", 1) h) initial in
  let s2 := after (__setitem__ true f ("example.com", 1) h) s1 in
  open_faults (@initial nat nat _ _) = [] ∧
  _protocols s2 = _protocols s1 ∧ store f s2 = store f s1.
Proof.
  intros f h s1 s2. split; [reflexivity|].
  destruct (insert_twice_is_insert_once true f ("example.com", 1) h initial eq_refl)
    as (_ & H1 & H2).
  exact (conj H1 H2).
Defined.
